(** * Context retrieval core: keyword extraction and the tiered ContextManager

    A shallow embedding of
    - [packages/core/src/services/keywordExtractor.ts] (module [KeywordExtractor]),
    - the [ContextManager] class (module [Memory]),
    together with the fragment of ECMAScript they run on: strings as
    sequences of UTF-16 code units, backtracking regular expressions
    ([RegExp.prototype.exec], [String.prototype.replace], [split]) and
    completions (a call returns, throws, or loops forever). *)

From Stdlib Require Import NArith Ascii String List Bool Lia.
From stdpp Require Import gmap strings list.

Local Open Scope nat_scope.

(** ** ECMAScript values *)

Module JS.

(** A string is a sequence of 16-bit code units; [length] is the number of
    code units.  Nothing below relies on the bound [< 65536]. *)
Definition codeunit := N.
Definition jsstring := list codeunit.

(** String literals of the source (all of them ASCII). *)
Definition js (s : string) : jsstring :=
  map N_of_ascii (list_ascii_of_string s).

(** The code unit of a one-character literal. *)
Definition chr (a : ascii) : codeunit := N_of_ascii a.

(** How a call completes.  [Diverges] stands for a loop that never exits. *)
Inductive outcome (A : Type) : Type :=
| Returns (a : A)
| Raises (e : string)
| Diverges.
Arguments Returns {A} a.
Arguments Raises {A} e.
Arguments Diverges {A}.

Definition bind {A B} (x : outcome A) (f : A -> outcome B) : outcome B :=
  match x with
  | Returns a => f a
  | Raises e => Raises e
  | Diverges => Diverges
  end.

#[global] Instance outcome_bind : MBind outcome := fun A B f x => bind x f.

Definition returns {A} (x : outcome A) : Prop := exists a, x = Returns a.

(** [\w] without the [u] and [i] flags: [A-Za-z0-9_]. *)
Definition isWordChar (c : codeunit) : bool :=
  ((65 <=? c) && (c <=? 90) || (97 <=? c) && (c <=? 122) ||
   (48 <=? c) && (c <=? 57) || (c =? 95))%N.

(** [\s], and what [trim] strips: WhiteSpace and LineTerminator. *)
Definition isWhiteSpace (c : codeunit) : bool :=
  ((9 <=? c) && (c <=? 13) || (c =? 32) || (c =? 160) || (c =? 5760) ||
   (8192 <=? c) && (c <=? 8202) || (c =? 8232) || (c =? 8233) ||
   (c =? 8239) || (c =? 8287) || (c =? 12288) || (c =? 65279))%N.

(** [s.substring(i, j)] for [i <= j]. *)
Definition substring (s : jsstring) (i j : nat) : jsstring :=
  take (j - i) (drop i s).

(** [s.trimStart()], [s.trimEnd()], [s.trim()]. *)
Fixpoint trimStart (s : jsstring) : jsstring :=
  match s with
  | c :: s' => if isWhiteSpace c then trimStart s' else s
  | [] => []
  end.

Definition trimEnd (s : jsstring) : jsstring := rev (trimStart (rev s)).

Definition trim (s : jsstring) : jsstring := trimEnd (trimStart s).

(** [s.split(sep)] for a separator of one code unit: every occurrence
    splits, and empty pieces are kept ([''.split(' ')] is [['']]). *)
Fixpoint splitOn (sep : codeunit) (s : jsstring) : list jsstring :=
  match s with
  | [] => [[]]
  | c :: s' =>
      if (c =? sep)%N then [] :: splitOn sep s'
      else match splitOn sep s' with
           | w :: ws => (c :: w) :: ws
           | [] => [[c]]
           end
  end.

(** [[...new Set(xs)]] and [Array.from(new Set(xs))]: a Set iterates in
    insertion order, so the first occurrence of each element is kept. *)
Fixpoint uniq_from `{EqDecision A} (seen : list A) (xs : list A) : list A :=
  match xs with
  | [] => []
  | x :: xs' =>
      if bool_decide (x ∈ seen) then uniq_from seen xs'
      else x :: uniq_from (x :: seen) xs'
  end.

Definition uniq `{EqDecision A} (xs : list A) : list A := uniq_from [] xs.

End JS.

(** ** Regular expressions

    The backtracking matcher of ECMAScript (sections 22.2.2 and 22.2.7 of
    the language specification) for the constructs the source uses, in
    continuation-passing style: a matcher receives the position reached and
    the captures so far, and a continuation that says whether the rest of
    the pattern matches from there.  The first success in priority order
    is the result. *)

Module RegExp.
Import JS.

(** Members of a character class. *)
Inductive cls : Type :=
| CChar (c : codeunit)
| CRange (lo hi : codeunit)
| CWord
| CSpace.

Inductive regex : Type :=
| Empty
| Class (negated : bool) (items : list cls)
| WordBoundary
| EndOfInput
| Seq (r1 r2 : regex)
| Alt (r1 r2 : regex)
| Rep (min : nat) (max : option nat) (r : regex)
| Group (n : nat) (r : regex).

(** Surface syntax. *)
Definition Chr (a : ascii) : regex := Class false [CChar (chr a)].
Definition Word : regex := Class false [CWord].
Definition Star (r : regex) : regex := Rep 0 None r.
Definition Plus (r : regex) : regex := Rep 1 None r.
Definition Opt (r : regex) : regex := Rep 0 (Some 1) r.
Infix "⋅" := Seq (at level 41, right associativity).

Definition in_cls (c : codeunit) (x : cls) : bool :=
  match x with
  | CChar d => (c =? d)%N
  | CRange lo hi => ((lo <=? c) && (c <=? hi))%N
  | CWord => isWordChar c
  | CSpace => isWhiteSpace c
  end.

Definition in_class (negated : bool) (items : list cls) (c : codeunit) : bool :=
  xorb negated (existsb (in_cls c) items).

(** Captures: group number to the span [(start, end)] it matched. *)
Abbreviation caps := (gmap nat (nat * nat)).

Record Match : Type := mkMatch {
  index : nat;          (* match.index *)
  lastIndex : nat;      (* the end of the match, the regex's new lastIndex *)
  captures : caps
}.

Definition Cont : Type := nat -> caps -> option Match.

Section Matcher.
Variable s : jsstring.

(** IsWordChar(e) of the specification: positions outside the input are
    not word characters. *)
Definition isWordAt (before : bool) (i : nat) : bool :=
  if before then
    match i with
    | 0 => false
    | S j => from_option isWordChar false (s !! j)
    end
  else from_option isWordChar false (s !! i).

(** RepeatMatcher: a greedy quantifier [{min,max}].  An iteration that
    is not required ([min = 0]) and consumes nothing is rejected.  The
    fuel bounds the number of iterations; [S (length s - i) + min]
    always suffices (see [rep_fuel]).  The captures of groups inside
    the quantified pattern are not reset between iterations: no pattern
    of the source has a group under a quantifier. *)
Fixpoint rep (body : nat -> caps -> Cont -> option Match)
    (fuel min : nat) (max : option nat) (i : nat) (c : caps) (k : Cont)
    : option Match :=
  match fuel with
  | 0 => None
  | S fuel' =>
      match max with
      | Some 0 => k i c
      | _ =>
          let more :=
            body i c (fun j c' =>
              if (min =? 0) && (j =? i) then None
              else rep body fuel' (pred min) (pred <$> max) j c' k) in
          if min =? 0
          then match more with Some x => Some x | None => k i c end
          else more
      end
  end.

Fixpoint m (r : regex) (i : nat) (c : caps) (k : Cont) : option Match :=
  match r with
  | Empty => k i c
  | Class negated items =>
      match s !! i with
      | Some ch => if in_class negated items ch then k (S i) c else None
      | None => None
      end
  | WordBoundary =>
      if xorb (isWordAt true i) (isWordAt false i) then k i c else None
  | EndOfInput => if i =? length s then k i c else None
  | Seq r1 r2 => m r1 i c (fun j c' => m r2 j c' k)
  | Alt r1 r2 =>
      match m r1 i c k with
      | Some x => Some x
      | None => m r2 i c k
      end
  | Rep min max r => rep (m r) (S (length s - i) + min) min max i c k
  | Group n r => m r i c (fun j c' => k j (<[n := (i, j)]> c'))
  end.

(** One attempt at position [i]. *)
Definition match_at (r : regex) (i : nat) : option Match :=
  m r i ∅ (fun j c => Some (mkMatch i j c)).

(** The search of RegExpBuiltinExec: the positions [i], [i+1], ... up to
    and including the end of the input, [n] of them. *)
Fixpoint scan (r : regex) (n i : nat) : option Match :=
  match n with
  | 0 => None
  | S n' =>
      match match_at r i with
      | Some x => Some x
      | None => scan r n' (S i)
      end
  end.

(** [regex.exec(s)] for a regex whose [lastIndex] is [from] (a global
    regex; a regex without the [g] flag always starts from 0). *)
Definition exec (r : regex) (from : nat) : option Match :=
  if length s <? from then None else scan r (S (length s - from)) from.

(** match[0] and match[n]. *)
Definition matched (x : Match) : jsstring :=
  substring s (index x) (lastIndex x).

Definition group (n : nat) (x : Match) : option jsstring :=
  (fun '(a, b) => substring s a b) <$> captures x !! n.

(** [while ((match = regex.exec(s)) !== null) body], for a global regex
    created just before the loop.  The loop variable is the regex's
    [lastIndex]; [st] is what the body updates.  A loop that has not
    exited when the fuel is spent is reported as [Diverges]. *)
Fixpoint while_exec {St : Type} (fuel : nat) (r : regex) (from : nat)
    (body : Match -> St -> outcome St) (st : St) : outcome St :=
  match fuel with
  | 0 => Diverges
  | S fuel' =>
      match exec r from with
      | None => Returns st
      | Some x => bind (body x st) (while_exec fuel' r (lastIndex x) body)
      end
  end.

(** [s.replace(regex, replacement)] with a global regex
    (RegExp.prototype[Symbol.replace]): the matches are collected first,
    an empty match advancing [lastIndex] by one; then the pieces
    between them and the replacements are concatenated. *)
Fixpoint replace_matches (fuel : nat) (r : regex) (from : nat)
    : outcome (list Match) :=
  match fuel with
  | 0 => Diverges
  | S fuel' =>
      match exec r from with
      | None => Returns []
      | Some x =>
          let next := if lastIndex x =? index x then S (lastIndex x)
                      else lastIndex x in
          bind (replace_matches fuel' r next) (fun xs => Returns (x :: xs))
      end
  end.

Fixpoint replace_build (replacement : Match -> jsstring)
    (xs : list Match) (pos : nat) : jsstring :=
  match xs with
  | [] => drop pos s
  | x :: xs' =>
      if pos <=? index x
      then substring s pos (index x) ++ replacement x
             ++ replace_build replacement xs' (lastIndex x)
      else replace_build replacement xs' pos
  end.

Definition replace_all (fuel : nat) (r : regex)
    (replacement : Match -> jsstring) : outcome jsstring :=
  bind (replace_matches fuel r 0)
       (fun xs => Returns (replace_build replacement xs 0)).

(** [s.replace(regex, replacement)] without the [g] flag: the first
    match only. *)
Definition replace_first (r : regex) (replacement : Match -> jsstring)
    : jsstring :=
  match exec r 0 with
  | None => s
  | Some x => take (index x) s ++ replacement x ++ drop (lastIndex x) s
  end.

(** [s.split(regex)] (RegExp.prototype[Symbol.split], no limit, no
    capturing groups): the separator is tried at each position [q]
    (sticky); [p] is the start of the current piece. *)
Fixpoint split_loop (fuel : nat) (r : regex) (p q : nat)
    : outcome (list jsstring) :=
  match fuel with
  | 0 => Diverges
  | S fuel' =>
      if q <? length s then
        match match_at r q with
        | None => split_loop fuel' r p (S q)
        | Some x =>
            let e := Nat.min (lastIndex x) (length s) in
            if e =? p then split_loop fuel' r p (S q)
            else bind (split_loop fuel' r e e)
                      (fun ws => Returns (substring s p q :: ws))
        end
      else Returns [substring s p (length s)]
  end.

Definition split (fuel : nat) (r : regex) : outcome (list jsstring) :=
  match s with
  | [] => match match_at r 0 with
          | Some _ => Returns []
          | None => Returns [[]]
          end
  | _ => split_loop fuel r 0 0
  end.

End Matcher.

(** The least number of code units a match of [r] consumes. *)
Fixpoint minlen (r : regex) : nat :=
  match r with
  | Empty | WordBoundary | EndOfInput => 0
  | Class _ _ => 1
  | Seq r1 r2 => minlen r1 + minlen r2
  | Alt r1 r2 => Nat.min (minlen r1) (minlen r2)
  | Rep min _ r => min * minlen r
  | Group _ r => minlen r
  end.

(** Quantifier bounds are ordered (anything else is a syntax error). *)
Fixpoint wf (r : regex) : bool :=
  match r with
  | Empty | WordBoundary | EndOfInput | Class _ _ => true
  | Seq r1 r2 | Alt r1 r2 => wf r1 && wf r2
  | Rep min max r => from_option (fun mx => min <=? mx) true max && wf r
  | Group _ r => wf r
  end.

(** Groups that every match of [r] defines. *)
Fixpoint sure (r : regex) : list nat :=
  match r with
  | Empty | WordBoundary | EndOfInput | Class _ _ | Alt _ _ => []
  | Seq r1 r2 => sure r1 ++ sure r2
  | Rep min _ r => if min =? 0 then [] else sure r
  | Group n r => n :: sure r
  end.

Section Properties.
Variable s : jsstring.

(** What a matcher guarantees about the state it hands to its
    continuation. *)
Definition post (len : nat) (groups : list nat) (i : nat) (c : caps)
    (j : nat) (c' : caps) : Prop :=
  i + len <= j /\ j <= length s /\
  (forall n, is_Some (c !! n) -> is_Some (c' !! n)) /\
  (forall n, n ∈ groups -> is_Some (c' !! n)).

Definition sound (body : nat -> caps -> Cont -> option Match)
    (len : nat) (groups : list nat) : Prop :=
  forall i c k x, i <= length s -> body i c k = Some x ->
    exists j c', post len groups i c j c' /\ k j c' = Some x.

(** A matcher started at [i] calls its continuation only at positions
    between [i] and the end of the input. *)
Definition agree (i : nat) (k k' : Cont) : Prop :=
  forall j c, i <= j <= length s -> k j c = k' j c.

Definition local (body : nat -> caps -> Cont -> option Match) : Prop :=
  forall i c k k', i <= length s -> agree i k k' -> body i c k = body i c k'.

End Properties.

(** ** What a pattern denotes

    The spans of the input a pattern can match, without the priorities
    of the backtracking search: [matches r i j] says that the code units
    from position [i] up to, not including, position [j] form a match of
    [r].  The matcher only ever reports such spans ([m_matches]). *)

Section Language.
Variable s : jsstring.

(** [n] spans in a row. *)
Fixpoint iter (span : nat -> nat -> Prop) (n : nat) (i j : nat) : Prop :=
  match n with
  | 0 => i = j
  | S n' => exists mid, span i mid /\ iter span n' mid j
  end.

Fixpoint matches (r : regex) (i j : nat) : Prop :=
  match r with
  | Empty => i = j
  | Class negated items =>
      exists ch, s !! i = Some ch /\ in_class negated items ch = true /\ j = S i
  | WordBoundary =>
      i = j /\ xorb (isWordAt s true i) (isWordAt s false i) = true
  | EndOfInput => i = j /\ i = length s
  | Seq r1 r2 => exists mid, matches r1 i mid /\ matches r2 mid j
  | Alt r1 r2 => matches r1 i j \/ matches r2 i j
  | Rep min max r =>
      exists n, min <= n /\ from_option (fun mx => n <= mx) True max
                /\ iter (matches r) n i j
  | Group _ r => matches r i j
  end.

(** What a matcher guarantees about the span it consumed. *)
Definition spans (body : nat -> caps -> Cont -> option Match)
    (span : nat -> nat -> Prop) : Prop :=
  forall i c k x, body i c k = Some x ->
    exists j c', span i j /\ k j c' = Some x.

End Language.

(** The code units a match of [r] can contain. *)
Fixpoint alphabet (r : regex) (ch : codeunit) : bool :=
  match r with
  | Empty | WordBoundary | EndOfInput => false
  | Class negated items => in_class negated items ch
  | Seq r1 r2 | Alt r1 r2 => alphabet r1 ch || alphabet r2 ch
  | Rep _ _ r | Group _ r => alphabet r ch
  end.

End RegExp.

(** ** keywordExtractor.ts *)

Module KeywordExtractor.
Import JS RegExp.

(** Common English stop words that don't carry meaningful search intent,
    and the common coding-related ones. *)
Definition STOP_WORDS : gset jsstring :=
  list_to_set (js <$> [
    "a"; "an"; "the"; "is"; "are"; "was"; "were"; "be"; "been"; "being";
    "have"; "has"; "had"; "do"; "does"; "did"; "will"; "would"; "could";
    "should"; "may"; "might"; "shall"; "can"; "need"; "to"; "of"; "in";
    "for"; "on"; "with"; "at"; "by"; "from"; "as"; "into"; "about"; "like";
    "through"; "after"; "before"; "between"; "out"; "above"; "below"; "up";
    "down"; "and"; "but"; "or"; "not"; "no"; "nor"; "so"; "yet"; "both";
    "if"; "then"; "else"; "when"; "while"; "where"; "how"; "what"; "which";
    "who"; "whom"; "why"; "this"; "that"; "these"; "those"; "it"; "its";
    "i"; "me"; "my"; "we"; "us"; "our"; "you"; "your"; "he"; "him"; "his";
    "she"; "her"; "they"; "them"; "their"; "all"; "each"; "every"; "any";
    "some"; "such"; "more"; "most"; "other"; "than"; "too"; "very"; "just";
    "also"; "now"; "here"; "there"; "only"; "please"; "help"; "want";
    "make"; "create"; "add"; "change"; "update"; "modify"; "fix";
    "implement"; "write"; "code"; "file"; "function"; "class"; "method";
    "new"; "use"; "using"
  ]%string).

Definition has (x : jsstring) (set : gset jsstring) : bool :=
  bool_decide (x ∈ set).

(** Result of keyword extraction, with keywords ranked by specificity. *)
Record ExtractedKeywords : Type := mkExtracted {
  keywords : list jsstring;
  quotedStrings : list jsstring;
  filePaths : list jsstring;
  identifiers : list jsstring;
  generalTerms : list jsstring
}.

(** The two quote characters, written by code unit: 34 is the double
    quote (shown as [Q] in the patterns quoted below), 39 the single
    quote. *)
Definition quotes : list cls := [CChar 34%N; CChar 39%N].

(** [/[Q']([^Q']+)[Q']/g] *)
Definition quotedRegex : regex :=
  Class false quotes ⋅ Group 1 (Plus (Class true quotes)) ⋅ Class false quotes.

(** [/[Q'][^Q']*[Q']/g] *)
Definition quotedSpanRegex : regex :=
  Class false quotes ⋅ Star (Class true quotes) ⋅ Class false quotes.

(** [[\w.-]] *)
Definition pathChar : regex := Class false [CWord; CChar (chr "."); CChar (chr "-")].

(** [/(?:\.{0,2}\/)?(?:[\w.-]+\/)+[\w.-]+(?:\.\w+)?/g] *)
Definition pathRegex : regex :=
  Opt (Rep 0 (Some 2) (Chr ".") ⋅ Chr "/")
  ⋅ Plus (Plus pathChar ⋅ Chr "/")
  ⋅ Plus pathChar
  ⋅ Opt (Chr "." ⋅ Plus Word).

(** [/\.$/] *)
Definition trailingDotRegex : regex := Chr "." ⋅ EndOfInput.

(** [[a-z]] and [[A-Z]] *)
Definition lowerLetter : regex := Class false [CRange (chr "a") (chr "z")].
Definition upperLetter : regex := Class false [CRange (chr "A") (chr "Z")].

(** [/\b[a-z]+(?:[A-Z][a-z]+)+\b|\b[A-Z][a-z]+(?:[A-Z][a-z]+)+\b/g] *)
Definition camelRegex : regex :=
  Alt (WordBoundary ⋅ Plus lowerLetter
          ⋅ Plus (upperLetter ⋅ Plus lowerLetter) ⋅ WordBoundary)
      (WordBoundary ⋅ upperLetter ⋅ Plus lowerLetter
          ⋅ Plus (upperLetter ⋅ Plus lowerLetter) ⋅ WordBoundary).

(** [/([a-z])([A-Z])/g] *)
Definition humpRegex : regex := Group 1 lowerLetter ⋅ Group 2 upperLetter.

(** [/\b\w+(?:_\w+)+\b/g] *)
Definition snakeRegex : regex :=
  WordBoundary ⋅ Plus Word ⋅ Plus (Chr "_" ⋅ Plus Word) ⋅ WordBoundary.

(** [/[^a-zA-Z0-9_\s-]/g] *)
Definition punctuationRegex : regex :=
  Class true [CRange (chr "a") (chr "z"); CRange (chr "A") (chr "Z");
              CRange (chr "0") (chr "9"); CChar (chr "_"); CSpace;
              CChar (chr "-")].

(** [/\s+/] *)
Definition spacesRegex : regex := Plus (Class false [CSpace]).

(** The substitution of [$n] in a replacement template: the capture, or
    the empty string when the group did not take part in the match. *)
Definition dollar (s : jsstring) (n : nat) (x : Match) : jsstring :=
  default [] (group s n x).

(** The number of iterations granted to a loop over the matches in [s];
    the loops of this file need at most [length s + 1] (see the
    termination lemmas). *)
Definition fuel_for (s : jsstring) : nat := S (S (length s)).

(** Extracts quoted strings from the query.
    Supports both single and double quotes. *)
Definition extractQuotedStrings (query : jsstring) : outcome (list jsstring) :=
  while_exec query (fuel_for query) quotedRegex 0
    (fun x matches =>
       match group query 1 x with
       | None => Raises "TypeError: match[1] is undefined"
       | Some g =>
           let content := trim g in
           if 0 <? length content then Returns (matches ++ [content])
           else Returns matches
       end) [].

(** Extracts file paths from the query. *)
Definition extractFilePaths (query : jsstring) : outcome (list jsstring) :=
  while_exec query (fuel_for query) pathRegex 0
    (fun x matches =>
       let filePath := matched query x in
       let filePath := replace_first filePath trailingDotRegex (fun _ => []) in
       if 0 <? length filePath then Returns (matches ++ [filePath])
       else Returns matches) [].

Section Extractor.
(** [String.prototype.toLowerCase].  Its Unicode case tables belong to
    the engine; the extractor is embedded over an arbitrary one. *)
Variable toLowerCase : jsstring -> jsstring.

(** [for (const part of parts) if (part.length > 2 &&
    !STOP_WORDS.has(part.toLowerCase())) results.push(part)] *)
Definition keepPart (part : jsstring) : bool :=
  (2 <? length part) && negb (has (toLowerCase part) STOP_WORDS).

Definition pushParts (parts : list jsstring) (results : list jsstring)
    : list jsstring :=
  foldl (fun results part =>
           if keepPart part then results ++ [part] else results)
        results parts.

(** Extracts and splits identifiers from the query.
    Handles camelCase, PascalCase, snake_case, and kebab-case. *)
Definition extractIdentifiers (query : jsstring) : outcome (list jsstring) :=
  (* Find camelCase/PascalCase identifiers (2+ uppercase transitions) *)
  results ←
    while_exec query (fuel_for query) camelRegex 0
      (fun x results =>
         let word := matched query x in
         let results := results ++ [word] in (* Keep the full identifier *)
         (* Split into component words *)
         spaced ← replace_all word (fuel_for word) humpRegex
                    (fun y => dollar word 1 y ++ js " " ++ dollar word 2 y);
         let parts := splitOn (chr " ") spaced in
         Returns (pushParts parts results))
      [];
  (* Find snake_case identifiers *)
  while_exec query (fuel_for query) snakeRegex 0
    (fun x results =>
       let word := matched query x in
       let results := results ++ [word] in (* Keep the full identifier *)
       let parts := splitOn (chr "_") word in
       Returns (pushParts parts results))
    results.

(** Extracts general terms from the query after removing stop words.
    These are the lowest-priority keywords. *)
Definition extractGeneralTerms (query : jsstring) : outcome (list jsstring) :=
  (* Remove quoted strings and file paths, then tokenize *)
  s1 ← replace_all query (fuel_for query) quotedSpanRegex (fun _ => []);
  s2 ← replace_all s1 (fuel_for s1) pathRegex (fun _ => []);
  s3 ← replace_all s2 (fuel_for s2) punctuationRegex (fun _ => js " ");
  words ← split s3 (fuel_for s3) spacesRegex;
  let cleaned :=
    List.filter (fun word => negb (has (toLowerCase word) STOP_WORDS))
      (List.filter (fun word => 2 <? length word) words) in
  Returns (uniq cleaned).

(** [addUnique]: the closure over [seen] and [keywords]. *)
Definition addUnique (terms : list jsstring)
    (st : gset jsstring * list jsstring) : gset jsstring * list jsstring :=
  foldl (fun '(seen, keywords) term =>
           let lower := toLowerCase term in
           if negb (has lower seen) && (1 <? length lower)
           then ({[lower]} ∪ seen, keywords ++ [term])
           else (seen, keywords))
        st terms.

(** Extracts and ranks keywords from a user query for use in codebase
    search.  Priority order: quoted strings, file paths, identifiers,
    general terms. *)
Definition extractKeywords (query : jsstring) : outcome ExtractedKeywords :=
  quotedStrings ← extractQuotedStrings query;
  filePaths ← extractFilePaths query;
  identifiers ← extractIdentifiers query;
  generalTerms ← extractGeneralTerms query;
  (* Combine all keywords in priority order, deduplicating *)
  let st := (∅, []) in
  let st := addUnique quotedStrings st in
  let st := addUnique filePaths st in
  let st := addUnique identifiers st in
  let st := addUnique generalTerms st in
  Returns (mkExtracted (snd st) quotedStrings filePaths identifiers
                       generalTerms).

(** The four calls of [addUnique] as one pass over the concatenated
    lists: a term is kept when its lower-case form is not among the
    forms [seen] and is longer than one code unit. *)
Fixpoint merge (seen : list jsstring) (terms : list jsstring) : list jsstring :=
  match terms with
  | [] => []
  | t :: ts =>
      if (bool_decide (toLowerCase t ∉ seen)) && (1 <? length (toLowerCase t))
      then t :: merge (toLowerCase t :: seen) ts
      else merge seen ts
  end.

End Extractor.

(** [toLowerCase] on the strings the examples below evaluate it at: the
    letters of Basic Latin, and U+0130 (capital I with dot above), whose
    lower case is the two code units U+0069 U+0307 (SpecialCasing.txt,
    unconditional).  Every other code unit is left as it is, which is
    what an engine does for the remaining code units of Basic Latin. *)
Definition lowerUnit (c : codeunit) : jsstring :=
  if ((65 <=? c) && (c <=? 90))%N then [(c + 32)%N]
  else if (c =? 304)%N then [105; 775]%N
  else [c].

Definition basicToLowerCase (s : jsstring) : jsstring := flat_map lowerUnit s.

(** The query of the specification's keyword-priority example:
    [Fix the Qlogin buttonQ color in src/components/AuthForm.tsx], with
    [Q] the double quote. *)
Definition example_query : jsstring :=
  js "Fix the " ++ [34%N] ++ js "login button" ++ [34%N]
     ++ js " color in src/components/AuthForm.tsx".

(** ** Vocabulary for the properties of the stages *)

(** [part] occurs in [whole] as a run of consecutive code units. *)
Definition occursIn (part whole : jsstring) : Prop :=
  exists before after, whole = before ++ part ++ after.

(** The code units of a path: word characters, dot, hyphen, slash. *)
Definition isPathUnit (c : codeunit) : bool :=
  isWordChar c || (c =? chr ".")%N || (c =? chr "-")%N || (c =? chr "/")%N.

(** The two quote characters: code units 34 and 39. *)
Definition isQuote (c : codeunit) : bool := (c =? 34)%N || (c =? 39)%N.

(** The code units a general term is made of: [[a-zA-Z0-9_-]]. *)
Definition isTermUnit (c : codeunit) : bool := isWordChar c || (c =? chr "-")%N.

(** [[A-Z]] *)
Definition isUpper (c : codeunit) : bool := ((65 <=? c) && (c <=? 90))%N.

(** [q] stands in [query] between two quote characters, with nothing but
    white space between it and them. *)
Definition quotedIn (q query : jsstring) : Prop :=
  exists before q1 pad1 pad2 q2 after,
    query = before ++ [q1] ++ pad1 ++ q ++ pad2 ++ [q2] ++ after /\
    isQuote q1 = true /\ isQuote q2 = true /\
    Forall (fun c => isWhiteSpace c = true) pad1 /\
    Forall (fun c => isWhiteSpace c = true) pad2.

(** [[a-z]] *)
Definition isLower (c : codeunit) : bool := ((97 <=? c) && (c <=? 122))%N.

End KeywordExtractor.

(** ** The ContextManager *)

Module Memory.
Import JS.

(** ['global' | 'extension' | 'project'] *)
Inductive Tier : Type := TierGlobal | TierExtension | TierProject.

(** [MemoryFileDetail]: one record per loaded file. *)
Record MemoryFileDetail : Type := mkDetail {
  path : jsstring;
  tier : Tier;
  chars : nat
}.

(** [GeminiFileContent]: [content] is [null] when the file could not be
    read. *)
Record GeminiFileContent : Type := mkContent {
  filePath : jsstring;
  content : option jsstring
}.

(** What [discoverMemoryPaths] returns. *)
Record MemoryPaths : Type := mkPaths {
  global : list jsstring;
  extension : list jsstring;
  project : list jsstring
}.

(** What [categorizeAndConcatenate] returns; a tier without content may be
    [undefined] or empty. *)
Record HierarchicalMemory : Type := mkHierarchical {
  hmGlobal : option jsstring;
  hmExtension : option jsstring;
  hmProject : option jsstring
}.

(** What [loadJitSubdirectoryMemory] returns. *)
Record JitFile : Type := mkJitFile {
  jitPath : jsstring;
  jitContent : jsstring
}.

Record MemoryLoadResult : Type := mkLoadResult { files : list JitFile }.

Inductive ImportFormat : Type := FormatFlat | FormatTree.

(** A [Map] keeps its keys in insertion order; setting a key that is
    present replaces the value where it stands. *)
Definition JsMap (V : Type) : Type := list (jsstring * V).

Fixpoint map_set {V} (k : jsstring) (v : V) (mp : JsMap V) : JsMap V :=
  match mp with
  | [] => [(k, v)]
  | (k', v') :: mp' =>
      if bool_decide (k = k') then (k, v) :: mp'
      else (k', v') :: map_set k v mp'
  end.

(** [new Map(entries)] *)
Definition map_of {V} (entries : list (jsstring * V)) : JsMap V :=
  foldl (fun mp '(k, v) => map_set k v mp) [] entries.

Fixpoint map_get {V} (k : jsstring) (mp : JsMap V) : option V :=
  match mp with
  | [] => None
  | (k', v) :: mp' => if bool_decide (k = k') then Some v else map_get k mp'
  end.

(** The collaborators of the ContextManager: the [Config] it is built
    with and the functions it imports from [utils/memoryDiscovery.js],
    which are taken as given.  A collaborator that touches the extension
    registry or the file system may throw (reject) or never settle.  The
    getters of the configuration and the two functions that put strings
    together ([categorizeAndConcatenate], [concatenateInstructions])
    work on values in memory and are taken to return. *)
Record Env : Type := mkEnv {
  (* config *)
  isTrustedFolder : bool;
  getDebugMode : bool;
  getWorkingDir : jsstring;
  getImportFormat : ImportFormat;
  getDirectories : list jsstring;       (* getWorkspaceContext().getDirectories() *)
  getMcpInstructions : option jsstring; (* getMcpClientManager()?.getMcpInstructions() *)
  (* memoryDiscovery.js *)
  getGlobalMemoryPaths : bool -> outcome (list jsstring);
  getExtensionMemoryPaths : outcome (list jsstring);
  getEnvironmentMemoryPaths : list jsstring -> bool -> outcome (list jsstring);
  readGeminiMdFiles :
    list jsstring -> bool -> ImportFormat -> outcome (list GeminiFileContent);
  categorizeAndConcatenate :
    MemoryPaths -> JsMap GeminiFileContent -> jsstring -> HierarchicalMemory;
  loadJitSubdirectoryMemory :
    jsstring -> list jsstring -> gset jsstring -> bool -> outcome MemoryLoadResult;
  concatenateInstructions : list GeminiFileContent -> jsstring -> jsstring
}.

(** What the ContextManager does to the outside: the calls it makes to
    its collaborators and the events it emits, in order. *)
Inductive Event : Type :=
| CallGetGlobalMemoryPaths (debugMode : bool)
| CallGetExtensionMemoryPaths
| CallGetEnvironmentMemoryPaths (directories : list jsstring) (debugMode : bool)
| CallReadGeminiMdFiles (paths : list jsstring) (debugMode : bool)
    (format : ImportFormat)
| CallLoadJitSubdirectoryMemory (accessedPath : jsstring)
    (trustedRoots : list jsstring) (alreadyLoaded : gset jsstring)
    (debugMode : bool)
| ConsoleLogLoaded (loaded : list (jsstring * nat)) (totalChars : nat)
| ConsoleLogNoFiles
| MemoryChanged (fileCount : nat).

(** The fields of the class. *)
Record ContextManager : Type := mkManager {
  loadedPaths : gset jsstring;
  globalMemory : jsstring;
  extensionMemory : jsstring;
  projectMemory : jsstring;
  memoryFileDetails : list MemoryFileDetail
}.

(** [new ContextManager(config)] *)
Definition initial : ContextManager := mkManager ∅ [] [] [] [].

(** A method runs on the object and the trace so far; it returns, throws
    or hangs, and leaves the object and the trace as they are at that
    point (a throw does not undo the assignments made before it). *)
Definition World : Type := ContextManager * list Event.
Definition M (A : Type) : Type := World -> outcome A * World.

Definition ret {A} (a : A) : M A := fun w => (Returns a, w).

Definition bindM {A B} (c : M A) (k : A -> M B) : M B :=
  fun w =>
    match c w with
    | (Returns a, w') => k a w'
    | (Raises e, w') => (Raises e, w')
    | (Diverges, w') => (Diverges, w')
    end.

#[global] Instance M_bind : MBind M := fun A B k c => bindM c k.

Definition emit (ev : Event) : M unit := fun '(cm, tr) => (Returns tt, (cm, tr ++ [ev])).

(** A call that is awaited on the spot. *)
Definition call {A} (ev : Event) (result : outcome A) : M A :=
  fun '(cm, tr) => (result, (cm, tr ++ [ev])).

(** A call whose promise is kept for later. *)
Definition start {A} (ev : Event) (result : outcome A) : M (outcome A) :=
  fun '(cm, tr) => (Returns result, (cm, tr ++ [ev])).

Definition await {A} (promise : outcome A) : M A := fun w => (promise, w).

Definition this : M ContextManager := fun '(cm, tr) => (Returns cm, (cm, tr)).

Definition assign (f : ContextManager -> ContextManager) : M unit :=
  fun '(cm, tr) => (Returns tt, (f cm, tr)).

Definition set_loadedPaths v cm :=
  mkManager v (globalMemory cm) (extensionMemory cm) (projectMemory cm)
            (memoryFileDetails cm).
Definition set_globalMemory v cm :=
  mkManager (loadedPaths cm) v (extensionMemory cm) (projectMemory cm)
            (memoryFileDetails cm).
Definition set_extensionMemory v cm :=
  mkManager (loadedPaths cm) (globalMemory cm) v (projectMemory cm)
            (memoryFileDetails cm).
Definition set_projectMemory v cm :=
  mkManager (loadedPaths cm) (globalMemory cm) (extensionMemory cm) v
            (memoryFileDetails cm).
Definition set_memoryFileDetails v cm :=
  mkManager (loadedPaths cm) (globalMemory cm) (extensionMemory cm)
            (projectMemory cm) v.

(** [Promise.all] of two promises: it rejects as soon as one of them
    does, also while the other is still pending. *)
Definition promise_all {A B} (a : outcome A) (b : outcome B) : outcome (A * B) :=
  match a, b with
  | Raises e, _ => Raises e
  | _, Raises e => Raises e
  | Diverges, _ => Diverges
  | _, Diverges => Diverges
  | Returns x, Returns y => Returns (x, y)
  end.

(** [xs.filter(Boolean).join(sep)] over strings that may be undefined. *)
Definition truthy (x : option jsstring) : list jsstring :=
  match x with
  | Some (c :: s) => [c :: s]
  | _ => []
  end.

Fixpoint join (sep : jsstring) (xs : list jsstring) : jsstring :=
  match xs with
  | [] => []
  | [x] => x
  | x :: xs' => x ++ sep ++ join sep xs'
  end.

(** [paths.forEach((p) => set.add(p))] *)
Definition addAll (set : gset jsstring) (paths : list jsstring) : gset jsstring :=
  foldl (fun set p => {[p]} ∪ set) set paths.

(** [allContents.filter((c) => c.content !== null)] *)
Definition loadedFilesOf (allContents : list GeminiFileContent)
    : list GeminiFileContent :=
  List.filter (fun c => bool_decide (content c <> None)) allContents.

(** [c.content?.length ?? 0] *)
Definition charsOf (c : GeminiFileContent) : nat := length (default [] (content c)).

(** The console message of [loadMemoryContents], by its data: the loaded
    files with their sizes and the total, or the notice that nothing was
    loaded. *)
Definition loadLog (loadedFiles : list GeminiFileContent) : Event :=
  let filePaths := map filePath loadedFiles in
  if 0 <? length filePaths then
    let fileDetails := map (fun c => (filePath c, charsOf c)) loadedFiles in
    let totalChars := foldl (fun sum c => sum + charsOf c) 0 loadedFiles in
    ConsoleLogLoaded fileDetails totalChars
  else ConsoleLogNoFiles.

(** The loop of [buildMemoryFileDetails] over the entries of the map. *)
Definition detailsOf (paths : MemoryPaths) (contentsMap : JsMap GeminiFileContent)
    (details : list MemoryFileDetail) : list MemoryFileDetail :=
  let globalSet : gset jsstring := list_to_set (global paths) in
  let extensionSet : gset jsstring := list_to_set (extension paths) in
  foldl (fun details '(filePath, c) =>
           match content c with
           | None => details
           | Some text =>
               let tier :=
                 if bool_decide (filePath ∈ globalSet) then TierGlobal
                 else if bool_decide (filePath ∈ extensionSet)
                      then TierExtension
                      else TierProject in
               details ++ [mkDetail filePath tier (length text)]
           end)
        details contentsMap.

Section Manager.
Variable env : Env.

(** [private markAsLoaded(paths)] *)
Definition markAsLoaded (paths : list jsstring) : M unit :=
  assign (fun cm => set_loadedPaths (addAll (loadedPaths cm) paths) cm).

(** [private async discoverMemoryPaths(debugMode)].  The elements of the
    array literal are evaluated from left to right: the global
    discovery is started, the extension paths are computed on the spot
    (a throw there leaves the method before the project discovery is
    started), the project discovery is started only in a trusted
    folder; then the promises are awaited together. *)
Definition discoverMemoryPaths (debugMode : bool) : M MemoryPaths :=
  pGlobal ← start (CallGetGlobalMemoryPaths debugMode)
                   (getGlobalMemoryPaths env debugMode);
  extension ← call CallGetExtensionMemoryPaths (getExtensionMemoryPaths env);
  pProject ← (if isTrustedFolder env
               then start (CallGetEnvironmentMemoryPaths
                             (getDirectories env) debugMode)
                          (getEnvironmentMemoryPaths env
                             (getDirectories env) debugMode)
               else ret (Returns []));
  '(global, project) ← await (promise_all pGlobal pProject);
  ret (mkPaths global extension project).

(** [private async loadMemoryContents(paths, debugMode)] *)
Definition loadMemoryContents (paths : MemoryPaths) (debugMode : bool)
    : M (JsMap GeminiFileContent) :=
  let allPaths := uniq (global paths ++ extension paths ++ project paths) in
  allContents ← call (CallReadGeminiMdFiles allPaths debugMode
                         (getImportFormat env))
                      (readGeminiMdFiles env allPaths debugMode
                         (getImportFormat env));
  let loadedFiles := loadedFilesOf allContents in
  let filePaths := map filePath loadedFiles in
  emit (loadLog loadedFiles);;
  markAsLoaded filePaths;;
  ret (map_of (map (fun c => (filePath c, c)) allContents)).

(** [private buildMemoryFileDetails(paths, contentsMap)] *)
Definition buildMemoryFileDetails (paths : MemoryPaths)
    (contentsMap : JsMap GeminiFileContent) : M unit :=
  assign (set_memoryFileDetails []);;
  assign (fun cm =>
    set_memoryFileDetails (detailsOf paths contentsMap (memoryFileDetails cm)) cm).

(** [projectMemoryWithMcp] *)
Definition projectMemoryWithMcp (hierarchicalMemory : HierarchicalMemory)
    : jsstring :=
  let mcpInstructions := default [] (getMcpInstructions env) in
  join [10; 10]%N
       (truthy (hmProject hierarchicalMemory)
          ++ truthy (Some (trimStart mcpInstructions))).

(** [private categorizeMemoryContents(paths, contentsMap)] *)
Definition categorizeMemoryContents (paths : MemoryPaths)
    (contentsMap : JsMap GeminiFileContent) : M unit :=
  let workingDir := getWorkingDir env in
  let hierarchicalMemory :=
    categorizeAndConcatenate env paths contentsMap workingDir in
  assign (set_globalMemory (default [] (hmGlobal hierarchicalMemory)));;
  assign (set_extensionMemory (default [] (hmExtension hierarchicalMemory)));;
  assign (set_projectMemory
            (if isTrustedFolder env
             then projectMemoryWithMcp hierarchicalMemory
             else [])).

(** [private emitMemoryChanged()] *)
Definition emitMemoryChanged : M unit :=
  cm ← this;
  emit (MemoryChanged (size (loadedPaths cm))).

(** [async refresh()]: refreshes the memory by reloading global,
    extension, and project memory. *)
Definition refresh : M unit :=
  assign (set_loadedPaths ∅);;
  assign (set_memoryFileDetails []);;
  let debugMode := getDebugMode env in
  paths ← discoverMemoryPaths debugMode;
  contentsMap ← loadMemoryContents paths debugMode;
  buildMemoryFileDetails paths contentsMap;;
  categorizeMemoryContents paths contentsMap;;
  emitMemoryChanged.

(** [async discoverContext(accessedPath, trustedRoots)]: discovers and
    loads context for a specific accessed path (Tier 3 - JIT). *)
Definition discoverContext (accessedPath : jsstring)
    (trustedRoots : list jsstring) : M jsstring :=
  if negb (isTrustedFolder env) then ret []
  else
    cm ← this;
    result ← call (CallLoadJitSubdirectoryMemory accessedPath trustedRoots
                      (loadedPaths cm) (getDebugMode env))
                   (loadJitSubdirectoryMemory env accessedPath trustedRoots
                      (loadedPaths cm) (getDebugMode env));
    if length (files result) =? 0 then ret []
    else
      markAsLoaded (map jitPath (files result));;
      ret (concatenateInstructions env
             (map (fun f => mkContent (jitPath f) (Some (jitContent f)))
                  (files result))
             (getWorkingDir env)).

(** The getters. *)
Definition getGlobalMemory (cm : ContextManager) : jsstring := globalMemory cm.
Definition getExtensionMemory (cm : ContextManager) : jsstring := extensionMemory cm.
Definition getEnvironmentMemory (cm : ContextManager) : jsstring := projectMemory cm.
Definition getLoadedPaths (cm : ContextManager) : gset jsstring := loadedPaths cm.
Definition getMemoryFileDetails (cm : ContextManager) : list MemoryFileDetail :=
  memoryFileDetails cm.

End Manager.

(** ** The collaborators, as far as the specification describes them *)

(** Modelled from the spec: [readGeminiMdFiles] of
    [utils/memoryDiscovery.js], which is not among the sources.  Section
    4.1, step 4: all paths are read; a failed read (missing file,
    permission denied, decode error) yields a null content marker for that
    path and is not fatal.  [readFile] is the file system: [None] is a
    read that fails. *)
Definition readGeminiMdFiles_spec (readFile : jsstring -> option jsstring)
    (paths : list jsstring) (debugMode : bool) (format : ImportFormat)
    : outcome (list GeminiFileContent) :=
  Returns (map (fun p => mkContent p (readFile p)) paths).

(** The file system as the upward walk sees it: reading a file, the
    parent of a directory (the root is its own parent), and the name of
    the memory file of a directory (a fixed filename convention). *)
Record FileSystem : Type := mkFileSystem {
  readFile : jsstring -> option jsstring;
  dirname : jsstring -> jsstring;
  memoryFileIn : jsstring -> jsstring
}.

(** Modelled from the spec: the upward walk of
    [loadJitSubdirectoryMemory] ([utils/memoryDiscovery.js], not among the
    sources).  Section 4.2, steps 2 and 3: at each directory the memory
    file is checked; a path already in the loaded-path set is skipped,
    otherwise it is read and, on success, added to the set and to the
    result; the walk stops at a trusted root, at the file-system root,
    or when the hop count is used up ([hops] directories have been
    visited). *)
Fixpoint jitWalk (fs : FileSystem) (hops : nat) (dir : jsstring)
    (trustedRoots : list jsstring) (loaded : gset jsstring) : list JitFile :=
  match hops with
  | 0 => []
  | S hops' =>
      let p := memoryFileIn fs dir in
      let here :=
        if bool_decide (p ∈ loaded) then []
        else match readFile fs p with
             | Some text => [mkJitFile p text]
             | None => []
             end in
      let loaded' := list_to_set (jitPath <$> here) ∪ loaded in
      here ++
        (if bool_decide (dir ∈ trustedRoots) || bool_decide (dirname fs dir = dir)
         then []
         else jitWalk fs hops' (dirname fs dir) trustedRoots loaded')
  end.

(** Modelled from the spec: [loadJitSubdirectoryMemory].  Section 4.2,
    steps 1 and 4: the walk starts at the directory containing the
    accessed path and only the newly loaded files are returned.
    [hopLimit] is the bound on the walk, which the specification leaves
    to the implementation (it suggests a ceiling such as 32). *)
Definition loadJitSubdirectoryMemory_spec (fs : FileSystem) (hopLimit : nat)
    (accessedPath : jsstring) (trustedRoots : list jsstring)
    (alreadyLoaded : gset jsstring) (debugMode : bool)
    : outcome MemoryLoadResult :=
  Returns (mkLoadResult
             (jitWalk fs hopLimit (dirname fs accessedPath) trustedRoots
                      alreadyLoaded)).

(** An environment with one collaborator replaced. *)
Definition with_reader
    (reader : list jsstring -> bool -> ImportFormat
              -> outcome (list GeminiFileContent)) (env : Env) : Env :=
  mkEnv (isTrustedFolder env) (getDebugMode env) (getWorkingDir env)
        (getImportFormat env) (getDirectories env) (getMcpInstructions env)
        (getGlobalMemoryPaths env) (getExtensionMemoryPaths env)
        (getEnvironmentMemoryPaths env) reader
        (categorizeAndConcatenate env) (loadJitSubdirectoryMemory env)
        (concatenateInstructions env).

Definition with_jit
    (jit : jsstring -> list jsstring -> gset jsstring -> bool
           -> outcome MemoryLoadResult) (env : Env) : Env :=
  mkEnv (isTrustedFolder env) (getDebugMode env) (getWorkingDir env)
        (getImportFormat env) (getDirectories env) (getMcpInstructions env)
        (getGlobalMemoryPaths env) (getExtensionMemoryPaths env)
        (getEnvironmentMemoryPaths env) (readGeminiMdFiles env)
        (categorizeAndConcatenate env) jit (concatenateInstructions env).

(** ** Tier discovery *)

(** The candidate lists of the three tiers, as the discovery functions
    produce them for [refresh]: the project tier is asked only in a
    trusted folder. *)
Definition globalCandidates (env : Env) : outcome (list jsstring) :=
  getGlobalMemoryPaths env (getDebugMode env).

Definition extensionCandidates (env : Env) : outcome (list jsstring) :=
  getExtensionMemoryPaths env.

Definition projectCandidates (env : Env) : outcome (list jsstring) :=
  if isTrustedFolder env
  then getEnvironmentMemoryPaths env (getDirectories env) (getDebugMode env)
  else Returns [].

(** The discovery calls of a [refresh] in which the extension registry
    answers. *)
Definition discoveryCalls (env : Env) : list Event :=
  [CallGetGlobalMemoryPaths (getDebugMode env); CallGetExtensionMemoryPaths]
  ++ (if isTrustedFolder env
      then [CallGetEnvironmentMemoryPaths (getDirectories env) (getDebugMode env)]
      else []).

(** A discovery fails when it throws. *)
Definition fails {A} (o : outcome A) : Prop := exists e, o = Raises e.

(** A failing tier degraded to the empty candidate list. *)
Definition degrade (o : outcome (list jsstring)) : outcome (list jsstring) :=
  match o with
  | Raises _ => Returns []
  | _ => o
  end.

Definition isolated (env : Env) : Env :=
  mkEnv (isTrustedFolder env) (getDebugMode env) (getWorkingDir env)
        (getImportFormat env) (getDirectories env) (getMcpInstructions env)
        (fun debugMode => degrade (getGlobalMemoryPaths env debugMode))
        (degrade (getExtensionMemoryPaths env))
        (fun dirs debugMode => degrade (getEnvironmentMemoryPaths env dirs debugMode))
        (readGeminiMdFiles env) (categorizeAndConcatenate env)
        (loadJitSubdirectoryMemory env) (concatenateInstructions env).

(** Tier isolation as the specification words it: a failing tier
    contributes the empty candidate list and the other tiers are loaded
    and categorized all the same, that is, [refresh] completes and leaves
    the object as it would with the failing discoveries degraded. *)
Definition tier_isolation (env : Env) (w : World) : Prop :=
  fst (refresh env w) = fst (refresh (isolated env) w) /\
  fst (snd (refresh env w)) = fst (snd (refresh (isolated env) w)).

(** The tier of a path under the priority global > extension > project. *)
Definition tierOf (paths : MemoryPaths) (p : jsstring) : Tier :=
  if bool_decide (p ∈ global paths) then TierGlobal
  else if bool_decide (p ∈ extension paths) then TierExtension
  else TierProject.

(** The record that [buildMemoryFileDetails] makes of one entry of the
    map: none for a null content. *)
Definition detailOf (paths : MemoryPaths) (entry : jsstring * GeminiFileContent)
    : option MemoryFileDetail :=
  (fun text => mkDetail (fst entry) (tierOf paths (fst entry)) (length text))
    <$> content (snd entry).

(** The read requests in a trace. *)
Definition readRequests (tr : list Event) : list (list jsstring) :=
  flat_map (fun ev => match ev with
                      | CallReadGeminiMdFiles paths _ _ => [paths]
                      | _ => []
                      end) tr.

Definition isDiscovery (ev : Event) : bool :=
  match ev with
  | CallGetEnvironmentMemoryPaths _ _ | CallLoadJitSubdirectoryMemory _ _ _ _ => true
  | _ => false
  end.

(** ** A small installation, for the examples *)

Definition globalFile : jsstring := js "/home/u/.gemini/GEMINI.md".
Definition extensionFile : jsstring := js "/ext/lint/GEMINI.md".
Definition projectFile : jsstring := js "/w/app/GEMINI.md".
Definition brokenFile : jsstring := js "/w/app/sub/GEMINI.md".

(** [brokenFile] cannot be read. *)
Definition example_readFile (p : jsstring) : option jsstring :=
  if bool_decide (p = globalFile) then Some (js "global rules")
  else if bool_decide (p = extensionFile) then Some (js "extension rules")
  else if bool_decide (p = projectFile) then Some (js "project rules")
  else None.

(** A stand-in for [categorizeAndConcatenate]: the contents of the files
    of each tier, one after the other. *)
Definition example_categorize (paths : MemoryPaths)
    (contentsMap : JsMap GeminiFileContent) (workingDir : jsstring)
    : HierarchicalMemory :=
  let text ps :=
    Some (concat (omap (fun p => c ← map_get p contentsMap; content c) ps)) in
  mkHierarchical (text (global paths)) (text (extension paths))
                 (text (project paths)).

(** The installation: whether the folder is trusted and what the
    extension registry answers are left open. *)
Definition example_env (trusted : bool) (extensions : outcome (list jsstring))
    : Env :=
  mkEnv trusted false (js "/w/app") FormatTree [js "/w/app"]
        (Some (js "  use the lint server"))
        (fun _ => Returns [globalFile])
        extensions
        (fun _ _ => Returns [extensionFile; projectFile; brokenFile])
        (readGeminiMdFiles_spec example_readFile)
        example_categorize
        (fun _ _ _ _ => Returns (mkLoadResult [mkJitFile projectFile (js "project rules")]))
        (fun cs _ => concat (omap content cs)).


(** ** The size summary *)

(** What [getMemorySizeBreakdown] returns. *)
Record MemorySizeBreakdown : Type := mkBreakdown {
  globalChars : nat;
  extensionChars : nat;
  projectChars : nat;
  totalChars : nat;
  fileCount : nat
}.

(** [getMemorySizeBreakdown()]: a summary of memory sizes by tier. *)
Definition getMemorySizeBreakdown (cm : ContextManager) : MemorySizeBreakdown :=
  let globalChars := length (globalMemory cm) in
  let extensionChars := length (extensionMemory cm) in
  let projectChars := length (projectMemory cm) in
  mkBreakdown globalChars extensionChars projectChars
              (globalChars + extensionChars + projectChars)
              (size (loadedPaths cm)).

(** The object as [refresh] leaves it when it does not complete: the
    loaded-path set and the records cleared, the buffers as they were. *)
Definition cleared (cm : ContextManager) : ContextManager :=
  set_memoryFileDetails [] (set_loadedPaths ∅ cm).

(** The memory-changed events in a trace. *)
Definition memoryChanges (tr : list Event) : list nat :=
  flat_map (fun ev => match ev with
                      | MemoryChanged n => [n]
                      | _ => []
                      end) tr.

End Memory.

(** * Properties *)

Module JSFacts.
Import JS.

(** ** Sets as arrays *)

Lemma uniq_from_spec `{EqDecision A} (xs seen : list A) :
  NoDup (uniq_from seen xs) /\
  forall x, x ∈ uniq_from seen xs <-> x ∈ xs /\ x ∉ seen.
Proof.
  revert seen. induction xs as [|a xs IH]; intros seen; simpl.
  - split; [constructor|]. intros x. rewrite elem_of_nil. tauto.
  - case_bool_decide as Ha.
    + destruct (IH seen) as [Hnd Hin]. split; [done|].
      intros x. rewrite Hin, elem_of_cons. split; [tauto|].
      intros [[->|?] ?]; tauto.
    + destruct (IH (a :: seen)) as [Hnd Hin]. split.
      * constructor; [|done]. rewrite Hin, elem_of_cons. tauto.
      * intros x. rewrite !elem_of_cons, Hin, elem_of_cons.
        destruct (decide (x = a)) as [->|]; tauto.
Qed.

Lemma uniq_NoDup `{EqDecision A} (xs : list A) : NoDup (uniq xs).
Proof. apply uniq_from_spec. Qed.

Lemma elem_of_uniq `{EqDecision A} (xs : list A) x : x ∈ uniq xs <-> x ∈ xs.
Proof.
  unfold uniq. rewrite (proj2 (uniq_from_spec xs [])), elem_of_nil. tauto.
Qed.


(** ** Trimming *)

Lemma trimStart_spec (s : jsstring) :
  exists pad,
    s = pad ++ trimStart s /\ Forall (fun c => isWhiteSpace c = true) pad /\
    forall c, head (trimStart s) = Some c -> isWhiteSpace c = false.
Proof.
  induction s as [|c s IH]; simpl.
  - exists []. by repeat split.
  - destruct (isWhiteSpace c) eqn:Hc.
    + destruct IH as (pad & Hs & Hpad & Hhead). exists (c :: pad).
      split; [by rewrite Hs at 1|]. split; [by constructor|done].
    + exists []. split; [done|]. split; [constructor|].
      simpl. by intros ? [= <-].
Qed.

Lemma trim_spec (s : jsstring) :
  exists pad1 pad2,
    s = pad1 ++ trim s ++ pad2 /\
    Forall (fun c => isWhiteSpace c = true) pad1 /\
    Forall (fun c => isWhiteSpace c = true) pad2 /\
    (forall c, head (trim s) = Some c -> isWhiteSpace c = false) /\
    (forall c, last (trim s) = Some c -> isWhiteSpace c = false).
Proof.
  unfold trim, trimEnd.
  destruct (trimStart_spec s) as (pad1 & Hs & Hpad1 & Hhead).
  set (u := trimStart s) in *.
  destruct (trimStart_spec (rev u)) as (pad2 & Hu & Hpad2 & Hlast).
  set (v := trimStart (rev u)) in *.
  assert (Hu' : u = rev v ++ rev pad2).
  { rewrite <- rev_app_distr, <- Hu. by rewrite rev_involutive. }
  exists pad1, (rev pad2). split; [by rewrite <- Hu'|].
  split; [done|]. split; [by apply Forall_rev|]. split.
  - intros c Hc. apply Hhead. rewrite Hu'.
    destruct (rev v) as [|c' l]; [done|]. done.
  - intros c Hc. apply Hlast. rewrite <- Hc.
    assert (H : forall l : jsstring, head l = last (rev l)); [|apply H].
    intros [|a l]; [done|]. simpl. by rewrite last_snoc.
Qed.

End JSFacts.
Module RegExpFacts.
Import JS RegExp.

Section Facts.
Variable s : jsstring.

Lemma post_weaken len groups len' groups' i c j c' :
  len' <= len -> groups' ⊆ groups ->
  post s len groups i c j c' -> post s len' groups' i c j c'.
Proof.
  intros Hl Hg (H1 & H2 & H3 & H4). repeat split; [lia | done | done |].
  intros n Hn. apply H4, Hg, Hn.
Qed.

Lemma post_trans len1 g1 len2 g2 i c j c' j' c'' :
  post s len1 g1 i c j c' -> post s len2 g2 j c' j' c'' ->
  post s (len1 + len2) (g1 ++ g2) i c j' c''.
Proof.
  intros (A1 & A2 & A3 & A4) (B1 & B2 & B3 & B4).
  repeat split; [lia | done | by intros n Hn; apply B3, A3 |].
  intros n [Hn|Hn]%elem_of_app; [apply B3, A4, Hn | apply B4, Hn].
Qed.

Lemma rep_sound body len groups :
  sound s body len groups ->
  forall fuel min max i c k x,
    from_option (fun mx => min <= mx) True max ->
    i <= length s ->
    rep body fuel min max i c k = Some x ->
    exists j c',
      post s (min * len) (if min =? 0 then [] else groups) i c j c' /\
      k j c' = Some x.
Proof.
  intros Hbody. induction fuel as [|fuel IH]; intros min max i c k x Hwf Hi; [done|].
  simpl.
  assert (Hstop : k i c = Some x -> min = 0 ->
            exists j c', post s (min * len) (if min =? 0 then [] else groups) i c j c'
                         /\ k j c' = Some x).
  { intros Hk ->. exists i, c. split; [|done].
    repeat split; [simpl; lia | done | done | by intros n ?%elem_of_nil]. }
  assert (Hmore :
    body i c (fun j c' =>
      if (min =? 0) && (j =? i) then None
      else rep body fuel (pred min) (pred <$> max) j c' k) = Some x ->
    exists j c', post s (min * len) (if min =? 0 then [] else groups) i c j c'
                 /\ k j c' = Some x).
  { intros Hb. apply Hbody in Hb as (j & c' & Hp & Hk); [|done].
    destruct ((min =? 0) && (j =? i)) eqn:E; [done|].
    assert (Hj : j <= length s) by apply Hp.
    apply IH in Hk as (j' & c'' & Hp' & Hk'); [|by destruct max as [[|mx]|], min; simpl in *; try lia|done].
    exists j', c''. split; [|done].
    pose proof (post_trans _ _ _ _ _ _ _ _ _ _ Hp Hp') as Hq.
    destruct min as [|min]; simpl in *.
    - eapply post_weaken; [| |exact Hq]; [lia|]. by intros n ?%elem_of_nil.
    - eapply post_weaken; [| |exact Hq]; [lia|].
      intros n Hn. apply elem_of_app. by left. }
  destruct max as [[|mx]|].
  - intros Hk. apply Hstop; [done|]. simpl in Hwf. lia.
  - destruct min as [|min]; simpl in *; [|by auto].
    match goal with |- context [body i c ?f] => destruct (body i c f) eqn:Hb end.
    + intros [= ->]. by apply Hmore.
    + intros Hk. by apply Hstop.
  - destruct min as [|min]; simpl in *; [|by auto].
    match goal with |- context [body i c ?f] => destruct (body i c f) eqn:Hb end.
    + intros [= ->]. by apply Hmore.
    + intros Hk. by apply Hstop.
Qed.

Lemma m_sound r : wf r -> sound s (m s r) (minlen r) (sure r).
Proof.
  induction r as [| neg items | | | r1 IH1 r2 IH2 | r1 IH1 r2 IH2
                 | min max r IH | n r IH]; simpl; intros Hwf i c k x Hi Hm.
  - exists i, c. split; [|done].
    repeat split; [lia | done | done | by intros n ?%elem_of_nil].
  - simpl in Hm. destruct (s !! i) as [ch|] eqn:Hch; [|done].
    destruct (in_class neg items ch); [|done].
    exists (S i), c. split; [|done].
    apply lookup_lt_Some in Hch.
    repeat split; [lia | lia | done | by intros n ?%elem_of_nil].
  - simpl in Hm. destruct (xorb _ _); [|done].
    exists i, c. split; [|done].
    repeat split; [lia | done | done | by intros n ?%elem_of_nil].
  - simpl in Hm. destruct (i =? length s); [|done].
    exists i, c. split; [|done].
    repeat split; [lia | done | done | by intros n ?%elem_of_nil].
  - apply andb_prop_elim in Hwf as [Hw1 Hw2].
    simpl in Hm. apply IH1 in Hm as (j & c' & Hp & Hm); [|done|done].
    apply IH2 in Hm as (j' & c'' & Hp' & Hk); [|done|apply Hp].
    exists j', c''. split; [|done]. eapply post_trans; eauto.
  - apply andb_prop_elim in Hwf as [Hw1 Hw2].
    simpl in Hm. destruct (m s r1 i c k) eqn:H1.
    + injection Hm as ->. apply IH1 in H1 as (j & c' & Hp & Hk); [|done|done].
      exists j, c'. split; [|done].
      eapply post_weaken; [| |exact Hp]; [lia|]. by intros n' ?%elem_of_nil.
    + apply IH2 in Hm as (j & c' & Hp & Hk); [|done|done].
      exists j, c'. split; [|done].
      eapply post_weaken; [| |exact Hp]; [lia|]. by intros n' ?%elem_of_nil.
  - apply andb_prop_elim in Hwf as [Hw1 Hw2].
    change (rep (m s r) (S (length s - i) + min) min max i c k = Some x) in Hm.
    eapply rep_sound in Hm; [exact Hm | by apply IH | | done].
    destruct max as [mx|]; simpl in *; [|done].
    by apply Is_true_eq_true, Nat.leb_le in Hw1.
  - simpl in Hm. apply IH in Hm as (j & c' & Hp & Hk); [|done|done].
    exists j, (<[n := (i, j)]> c'). split; [|done].
    destruct Hp as (P1 & P2 & P3 & P4). repeat split; [done|done| |].
    + intros n' Hn'. destruct (decide (n = n')) as [->|Hne].
      * rewrite lookup_insert_eq. eauto.
      * rewrite lookup_insert_ne by done. by apply P3.
    + intros n' [->|Hn']%elem_of_cons.
      * rewrite lookup_insert_eq. eauto.
      * destruct (decide (n = n')) as [->|Hne].
        -- rewrite lookup_insert_eq. eauto.
        -- rewrite lookup_insert_ne by done. by apply P4.
Qed.

Lemma rep_local body :
  local s body -> forall fuel min max, local s (fun i c k => rep body fuel min max i c k).
Proof.
  intros Hbody. induction fuel as [|fuel IH]; intros min max i c k k' Hi Hk; [done|].
  simpl. rewrite (Hk i c) by lia.
  erewrite (Hbody i c); [reflexivity | done |].
  intros j c' Hj. destruct ((min =? 0) && (j =? i)); [done|].
  apply IH; [lia|]. intros j' c'' Hj'. apply Hk. lia.
Qed.

Lemma m_local r : local s (m s r).
Proof.
  induction r as [| neg items | | | r1 IH1 r2 IH2 | r1 IH1 r2 IH2
                 | min max r IH | n r IH]; intros i c k k' Hi Hk;
    cbn [m].
  - apply Hk. lia.
  - destruct (s !! i) as [ch|] eqn:Hch; [|done].
    apply lookup_lt_Some in Hch.
    destruct (in_class neg items ch); [|done]. apply Hk. lia.
  - destruct (xorb _ _); [|done]. apply Hk. lia.
  - destruct (i =? length s); [|done]. apply Hk. lia.
  - apply IH1; [done|]. intros j c' Hj. apply IH2; [lia|].
    intros j' c'' Hj'. apply Hk. lia.
  - rewrite (IH1 i c k k'), (IH2 i c k k') by done. done.
  - by apply (rep_local _ IH).
  - apply IH; [done|]. intros j c' Hj. apply Hk. lia.
Qed.

(** The fuel given to a quantifier in [m] is never used up: any larger
    amount gives the same result. *)
Lemma rep_fuel body :
  local s body ->
  forall fuel fuel' min max i c k,
    i <= length s ->
    S (length s - i) + min <= fuel -> S (length s - i) + min <= fuel' ->
    rep body fuel min max i c k = rep body fuel' min max i c k.
Proof.
  intros Hbody. induction fuel as [|fuel IH]; intros fuel' min max i c k Hi H1 H2;
    [lia|].
  destruct fuel' as [|fuel']; [lia|]. simpl.
  erewrite (Hbody i c); [reflexivity | done |].
  intros j c' Hj. destruct ((min =? 0) && (j =? i)) eqn:E; [done|].
  apply IH; [lia | |].
  - destruct min as [|min]; simpl in *; [|lia].
    apply Nat.eqb_neq in E. lia.
  - destruct min as [|min]; simpl in *; [|lia].
    apply Nat.eqb_neq in E. lia.
Qed.

(** ** [exec] *)

Lemma match_at_spec r i x :
  wf r -> i <= length s -> match_at s r i = Some x ->
  index x = i /\ i + minlen r <= lastIndex x /\ lastIndex x <= length s /\
  forall n, n ∈ sure r -> is_Some (captures x !! n).
Proof.
  intros Hwf Hi Hm. apply m_sound in Hm as (j & c' & (P1 & P2 & P3 & P4) & [= <-]);
    [|done|done].
  simpl. done.
Qed.

Lemma scan_spec r n i x :
  wf r -> i + n <= S (length s) -> scan s r n i = Some x ->
  i <= index x /\ index x + minlen r <= lastIndex x /\
  lastIndex x <= length s /\
  forall n, n ∈ sure r -> is_Some (captures x !! n).
Proof.
  intros Hwf. revert i. induction n as [|n IH]; intros i Hi; [done|].
  simpl. destruct (match_at s r i) eqn:Hm.
  - intros [= ->]. apply match_at_spec in Hm as (Hx & ? & ? & ?); [|done|lia].
    split; [lia|]. split; [lia|]. split; [lia|done].
  - intros Hs. apply IH in Hs as (? & ? & ? & ?); [|lia]. split; [lia|done].
Qed.

Lemma exec_spec r from x :
  wf r -> exec s r from = Some x ->
  from <= index x /\ index x + minlen r <= lastIndex x /\
  lastIndex x <= length s /\
  forall n, n ∈ sure r -> is_Some (captures x !! n).
Proof.
  intros Hwf. unfold exec. destruct (length s <? from) eqn:E; [done|].
  apply Nat.ltb_ge in E. intros Hs. apply scan_spec in Hs; [done|done|lia].
Qed.

(** A loop over the matches of a pattern that cannot match the empty
    string exits, provided its body returns. *)
Lemma while_exec_returns {St} r (body : Match -> St -> outcome St) :
  wf r -> 0 < minlen r ->
  (forall from x st, exec s r from = Some x -> returns (body x st)) ->
  forall fuel from st,
    from <= length s -> length s < fuel + from ->
    returns (while_exec s fuel r from body st).
Proof.
  intros Hwf Hlen Hbody. induction fuel as [|fuel IH]; intros from st Hle Hf;
    simpl; [lia|].
  destruct (exec s r from) as [x|] eqn:Hx; [|by eexists].
  destruct (Hbody _ _ st Hx) as [st' ->]. simpl.
  apply exec_spec in Hx as (? & ? & ? & _); [|done].
  apply IH; lia.
Qed.

(** What the loop returns satisfies every invariant its body
    preserves. *)
Lemma while_exec_invariant {St} (P : St -> Prop) r
    (body : Match -> St -> outcome St) :
  (forall x st st', P st -> body x st = Returns st' -> P st') ->
  forall fuel from st st',
    P st -> while_exec s fuel r from body st = Returns st' -> P st'.
Proof.
  intros Hbody. induction fuel as [|fuel IH]; intros from st st' HP; simpl; [done|].
  destruct (exec s r from) as [x|]; [|by intros [= <-]].
  destruct (body x st) as [st1| |] eqn:Hb; simpl; [|done|done].
  apply IH. by eapply Hbody.
Qed.

(** Fuel only bounds the loops: a loop that has exited gives the same
    result with any larger amount. *)
Lemma while_exec_more_fuel {St} r (body : Match -> St -> outcome St) :
  forall fuel fuel' from st st',
    fuel <= fuel' ->
    while_exec s fuel r from body st = Returns st' ->
    while_exec s fuel' r from body st = Returns st'.
Proof.
  induction fuel as [|fuel IH]; intros fuel' from st st' Hle; simpl; [done|].
  destruct fuel' as [|fuel']; [lia|]. simpl.
  destruct (exec s r from) as [x|]; [|done].
  destruct (body x st) as [st1| |]; simpl; [|done|done].
  apply IH. lia.
Qed.

Lemma replace_matches_more_fuel r :
  forall fuel fuel' from xs,
    fuel <= fuel' ->
    replace_matches s fuel r from = Returns xs ->
    replace_matches s fuel' r from = Returns xs.
Proof.
  induction fuel as [|fuel IH]; intros fuel' from xs Hle; simpl; [done|].
  destruct fuel' as [|fuel']; [lia|]. simpl.
  destruct (exec s r from) as [x|]; [|done].
  match goal with |- context [replace_matches s fuel r ?n] =>
    destruct (replace_matches s fuel r n) as [ys| |] eqn:Hys end;
    simpl; [|done|done].
  intros [= <-]. erewrite IH; [done|lia|exact Hys].
Qed.

Lemma split_loop_more_fuel r :
  forall fuel fuel' p q ws,
    fuel <= fuel' ->
    split_loop s fuel r p q = Returns ws ->
    split_loop s fuel' r p q = Returns ws.
Proof.
  induction fuel as [|fuel IH]; intros fuel' p q ws Hle; simpl; [done|].
  destruct fuel' as [|fuel']; [lia|]. simpl.
  destruct (q <? length s); [|done].
  destruct (match_at s r q) as [x|]; [|apply IH; lia].
  destruct (_ =? p); [apply IH; lia|].
  match goal with |- context [split_loop s fuel r ?a ?b] =>
    destruct (split_loop s fuel r a b) as [vs| |] eqn:Hvs end;
    simpl; [|done|done].
  intros [= <-]. erewrite IH; [done|lia|exact Hvs].
Qed.

Lemma replace_matches_returns r :
  wf r ->
  forall fuel from,
    from <= S (length s) -> S (length s) < fuel + from ->
    returns (replace_matches s fuel r from).
Proof.
  intros Hwf. induction fuel as [|fuel IH]; intros from Hle Hf; simpl; [lia|].
  destruct (exec s r from) as [x|] eqn:Hx; [|by eexists].
  apply exec_spec in Hx as (? & ? & ? & _); [|done].
  match goal with |- context [replace_matches s fuel r ?n] =>
    destruct (IH n) as [xs ->] end; [| |by eexists].
  - destruct (lastIndex x =? index x); lia.
  - destruct (lastIndex x =? index x) eqn:E;
      [apply Nat.eqb_eq in E | apply Nat.eqb_neq in E]; lia.
Qed.

Lemma replace_all_returns r replacement :
  wf r -> returns (replace_all s (S (S (length s))) r replacement).
Proof.
  intros Hwf. unfold replace_all.
  destruct (replace_matches_returns r Hwf (S (S (length s))) 0) as [xs ->];
    [lia|lia|]. by eexists.
Qed.

Lemma split_loop_returns r :
  wf r -> 0 < minlen r ->
  forall fuel p q,
    q <= length s -> length s < fuel + q ->
    returns (split_loop s fuel r p q).
Proof.
  intros Hwf Hlen. induction fuel as [|fuel IH]; intros p q Hle Hf; simpl; [lia|].
  destruct (q <? length s) eqn:Hq; [|by eexists].
  apply Nat.ltb_lt in Hq.
  destruct (match_at s r q) as [x|] eqn:Hx; [|apply IH; lia].
  apply match_at_spec in Hx as (? & ? & ? & _); [|done|lia].
  destruct (_ =? p); [apply IH; lia|].
  match goal with |- context [split_loop s fuel r ?a ?b] =>
    destruct (IH a b) as [ws ->] end; [lia|lia|by eexists].
Qed.

Lemma split_returns r :
  wf r -> 0 < minlen r -> returns (split s (S (S (length s))) r).
Proof.
  intros Hwf Hlen. unfold split. destruct s as [|c s'] eqn:Hs.
  - destruct (match_at [] r 0); by eexists.
  - rewrite <- Hs. apply split_loop_returns; [done|done|lia|lia].
Qed.

End Facts.
(** ** The matcher reports spans of the pattern's language *)

Section Language.
Variable s : jsstring.

Lemma rep_matches body span :
  spans body span ->
  forall fuel min max i c k x,
    from_option (fun mx => min <= mx) True max ->
    rep body fuel min max i c k = Some x ->
    exists j c' n,
      min <= n /\ from_option (fun mx => n <= mx) True max /\
      iter span n i j /\ k j c' = Some x.
Proof.
  intros Hbody. induction fuel as [|fuel IH]; intros min max i c k x Hwf; [done|].
  simpl.
  assert (Hstop : k i c = Some x -> min = 0 ->
            exists j c' n,
              min <= n /\ from_option (fun mx => n <= mx) True max /\
              iter span n i j /\ k j c' = Some x).
  { intros Hk ->. exists i, c, 0. split; [lia|]. split; [|done].
    destruct max; simpl; [lia|done]. }
  assert (Hmore :
    max <> Some 0 ->
    body i c (fun j c' =>
      if (min =? 0) && (j =? i) then None
      else rep body fuel (pred min) (pred <$> max) j c' k) = Some x ->
    exists j c' n,
      min <= n /\ from_option (fun mx => n <= mx) True max /\
      iter span n i j /\ k j c' = Some x).
  { intros Hmax Hb. apply Hbody in Hb as (j & c' & Hspan & Hk).
    destruct ((min =? 0) && (j =? i)); [done|].
    apply IH in Hk as (j' & c'' & n & Hn & Hmx & Hiter & Hk).
    - exists j', c'', (S n). split; [lia|]. split; [|split; [|done]].
      + destruct max as [[|mx]|]; simpl in *; [done|lia|done].
      + simpl. by exists j.
    - destruct max as [[|mx]|]; simpl in *; [done|lia|done]. }
  destruct max as [[|mx]|].
  - intros Hk. apply Hstop; [done|]. simpl in Hwf. lia.
  - destruct min as [|min]; simpl in *; [|by auto].
    match goal with |- context [body i c ?f] => destruct (body i c f) eqn:Hb end.
    + intros [= ->]. by apply Hmore.
    + intros Hk. by apply Hstop.
  - destruct min as [|min]; simpl in *; [|by auto].
    match goal with |- context [body i c ?f] => destruct (body i c f) eqn:Hb end.
    + intros [= ->]. by apply Hmore.
    + intros Hk. by apply Hstop.
Qed.

Lemma m_matches r : wf r -> spans (m s r) (matches s r).
Proof.
  induction r as [| neg items | | | r1 IH1 r2 IH2 | r1 IH1 r2 IH2
                 | min max r IH | n r IH]; intros Hwf i c k x Hm.
  - by exists i, c.
  - cbn [m] in Hm. destruct (s !! i) as [ch|] eqn:Hch; [|done].
    destruct (in_class neg items ch) eqn:Hin; [|done].
    exists (S i), c. split; [|done]. by exists ch.
  - cbn [m] in Hm. destruct (xorb _ _) eqn:Hb; [|done]. by exists i, c.
  - cbn [m] in Hm. destruct (i =? length s) eqn:Hb; [|done].
    apply Nat.eqb_eq in Hb. by exists i, c.
  - cbn [wf] in Hwf. apply andb_prop_elim in Hwf as [Hw1 Hw2].
    cbn [m] in Hm. apply IH1 in Hm as (j & c' & H1 & Hm); [|done].
    apply IH2 in Hm as (j' & c'' & H2 & Hk); [|done].
    exists j', c''. split; [|done]. by exists j.
  - cbn [wf] in Hwf. apply andb_prop_elim in Hwf as [Hw1 Hw2].
    cbn [m] in Hm. destruct (m s r1 i c k) eqn:H1.
    + injection Hm as ->. apply IH1 in H1 as (j & c' & Hp & Hk); [|done].
      exists j, c'. split; [by left|done].
    + apply IH2 in Hm as (j & c' & Hp & Hk); [|done].
      exists j, c'. split; [by right|done].
  - cbn [wf] in Hwf. apply andb_prop_elim in Hwf as [Hw1 Hw2].
    change (rep (m s r) (S (length s - i) + min) min max i c k = Some x) in Hm.
    eapply rep_matches in Hm as (j & c' & n & Hn & Hmx & Hiter & Hk);
      [|by apply IH|].
    + exists j, c'. split; [|done]. by exists n.
    + destruct max as [mx|]; simpl in *; [|done].
      by apply Is_true_eq_true, Nat.leb_le in Hw1.
  - cbn [m] in Hm. apply IH in Hm as (j & c' & Hp & Hk); [|done].
    exists j, (<[n := (i, j)]> c'). done.
Qed.

Lemma match_at_matches r i x :
  wf r -> match_at s r i = Some x ->
  index x = i /\ matches s r i (lastIndex x).
Proof.
  intros Hwf Hm. apply m_matches in Hm as (j & c' & Hspan & [= <-]); [|done].
  done.
Qed.

(** The search reports the first position at which the pattern
    matches. *)
Lemma scan_first r n i x :
  wf r -> scan s r n i = Some x ->
  i <= index x < i + n /\ match_at s r (index x) = Some x /\
  forall t, i <= t < index x -> match_at s r t = None.
Proof.
  intros Hwf. revert i. induction n as [|n IH]; intros i; [done|]. simpl.
  destruct (match_at s r i) as [y|] eqn:Hy.
  - intros [= ->]. destruct (match_at_matches r i x Hwf Hy) as [Hi _].
    rewrite Hi. split; [lia|]. split; [done|]. intros t Ht. lia.
  - intros Hs. apply IH in Hs as (Hi & Hm & Hnone). split; [lia|].
    split; [done|]. intros t Ht. destruct (decide (t = i)) as [->|]; [done|].
    apply Hnone. lia.
Qed.

Lemma scan_none r n i :
  scan s r n i = None -> forall t, i <= t < i + n -> match_at s r t = None.
Proof.
  revert i. induction n as [|n IH]; intros i; [intros _ t Ht; lia|]. simpl.
  destruct (match_at s r i) as [y|] eqn:Hy; [done|].
  intros Hs t Ht. destruct (decide (t = i)) as [->|]; [done|].
  apply (IH (S i)); [done|lia].
Qed.

(** What [exec] reports is the first match at or after [from]. *)
Lemma exec_first r from x :
  wf r -> exec s r from = Some x ->
  from <= index x <= length s /\
  matches s r (index x) (lastIndex x) /\
  match_at s r (index x) = Some x /\
  forall t, from <= t < index x -> match_at s r t = None.
Proof.
  intros Hwf. unfold exec. destruct (length s <? from) eqn:E; [done|].
  apply Nat.ltb_ge in E. intros Hs.
  apply scan_first in Hs as (Hi & Hm & Hnone); [|done].
  split; [lia|]. split; [|done].
  by destruct (match_at_matches r _ x Hwf Hm) as [_ ?].
Qed.

Lemma exec_none r from :
  exec s r from = None ->
  forall t, from <= t <= length s -> match_at s r t = None.
Proof.
  unfold exec. destruct (length s <? from) eqn:E.
  - apply Nat.ltb_lt in E. intros _ t Ht. lia.
  - apply Nat.ltb_ge in E. intros Hs t Ht.
    apply (scan_none _ _ _ Hs). lia.
Qed.

(** ** Spans *)

Lemma iter_bounds (span : nat -> nat -> Prop) n :
  (forall i j, i <= length s -> span i j -> i <= j <= length s) ->
  forall i j, i <= length s -> iter span n i j -> i <= j <= length s.
Proof.
  intros Hspan. induction n as [|n IH]; intros i j Hi; simpl.
  - intros <-. lia.
  - intros (mid & H1 & H2). apply Hspan in H1; [|done].
    apply IH in H2; lia.
Qed.

Lemma matches_bounds r : forall i j,
  i <= length s -> matches s r i j -> i <= j <= length s.
Proof.
  induction r as [| neg items | | | r1 IH1 r2 IH2 | r1 IH1 r2 IH2
                 | min max r IH | n r IH]; intros i j Hi; cbn [matches].
  - intros <-. lia.
  - intros (ch & Hch%lookup_lt_Some & _ & ->). lia.
  - intros [<- _]. lia.
  - intros [<- _]. lia.
  - intros (mid & H1 & H2). apply IH1 in H1; [|done]. apply IH2 in H2; lia.
  - intros [H|H]; [by apply IH1|by apply IH2].
  - intros (n & _ & _ & Hiter). by eapply iter_bounds.
  - by apply IH.
Qed.

(** Every code unit of a span is in the alphabet of its pattern. *)
Lemma matches_alphabet r : forall i j,
  i <= length s -> matches s r i j ->
  forall t, i <= t < j -> exists ch, s !! t = Some ch /\ alphabet r ch = true.
Proof.
  induction r as [| neg items | | | r1 IH1 r2 IH2 | r1 IH1 r2 IH2
                 | min max r IH | n r IH]; intros i j Hi; cbn [matches alphabet].
  - intros <- t Ht. lia.
  - intros (ch & Hch & Hin & ->) t Ht. assert (t = i) as -> by lia. by exists ch.
  - intros [<- _] t Ht. lia.
  - intros [<- _] t Ht. lia.
  - intros (mid & H1 & H2) t Ht.
    pose proof (matches_bounds _ _ _ Hi H1) as Hmid.
    destruct (decide (t < mid)) as [Hlt|Hge].
    + destruct (IH1 _ _ Hi H1 t) as (ch & Hch & Ha); [lia|].
      exists ch. split; [done|]. by rewrite Ha.
    + destruct (IH2 mid j) with (t := t) as (ch & Hch & Ha); [lia|done|lia|].
      exists ch. split; [done|]. rewrite Ha. by rewrite orb_true_r.
  - intros [H|H] t Ht.
    + destruct (IH1 _ _ Hi H t Ht) as (ch & Hch & Ha).
      exists ch. split; [done|]. by rewrite Ha.
    + destruct (IH2 _ _ Hi H t Ht) as (ch & Hch & Ha).
      exists ch. split; [done|]. rewrite Ha. by rewrite orb_true_r.
  - intros (n & _ & _ & Hiter). revert i Hi Hiter.
    induction n as [|n IHn]; intros i Hi; simpl.
    + intros <- t Ht. lia.
    + intros (mid & H1 & H2) t Ht.
      pose proof (matches_bounds _ _ _ Hi H1) as Hmid.
      destruct (decide (t < mid)) as [Hlt|Hge].
      * apply (IH _ _ Hi H1). lia.
      * apply (IHn mid); [lia|done|lia].
  - by apply IH.
Qed.

End Language.

Section Loops.
Variable s : jsstring.

(** What the loop returns satisfies every invariant its body preserves
    on the matches [exec] reports. *)
Lemma while_exec_invariant_exec {St} (P : St -> Prop) r
    (body : Match -> St -> outcome St) :
  (forall from x st st',
      exec s r from = Some x -> P st -> body x st = Returns st' -> P st') ->
  forall fuel from st st',
    P st -> while_exec s fuel r from body st = Returns st' -> P st'.
Proof.
  intros Hbody. induction fuel as [|fuel IH]; intros from st st' HP; simpl; [done|].
  destruct (exec s r from) as [x|] eqn:Hx; [|by intros [= <-]].
  destruct (body x st) as [st1| |] eqn:Hb; simpl; [|done|done].
  apply IH. by eapply Hbody.
Qed.

(** A pattern that matches nowhere leaves the loop at once. *)
Lemma while_exec_no_match {St} r (body : Match -> St -> outcome St) fuel st :
  (forall t, match_at s r t = None) ->
  while_exec s (S fuel) r 0 body st = Returns st.
Proof.
  intros Hnone. simpl. destruct (exec s r 0) as [x|] eqn:Hx; [|done].
  unfold exec in Hx. destruct (length s <? 0); [done|].
  assert (H : forall n i, scan s r n i = None).
  { induction n as [|n IH]; intros i; simpl; [done|]. by rewrite Hnone. }
  by rewrite H in Hx.
Qed.

Lemma substring_occursIn i j :
  exists before after, s = before ++ substring s i j ++ after.
Proof.
  exists (take i s), (drop (j - i) (drop i s)). unfold substring.
  by rewrite (take_drop (j - i)), take_drop.
Qed.

Lemma substring_lookup i j t ch :
  substring s i j !! t = Some ch -> s !! (i + t) = Some ch /\ i + t < j.
Proof.
  unfold substring. intros H.
  apply lookup_take_Some in H as [H Hlt]. rewrite lookup_drop in H.
  split; [done|lia].
Qed.

Lemma substring_Forall (P : codeunit -> Prop) i j :
  (forall t, i <= t < j -> forall ch, s !! t = Some ch -> P ch) ->
  Forall P (substring s i j).
Proof.
  intros H. apply Forall_lookup. intros t ch Ht.
  apply substring_lookup in Ht as [Hs Hlt]. apply (H (i + t)); [lia|done].
Qed.

End Loops.

Lemma in_class_char c ch : in_class false [CChar c] ch = true -> ch = c.
Proof.
  unfold in_class. simpl. rewrite orb_false_r. by intros ?%N.eqb_eq.
Qed.

Section Pieces.
Variable s : jsstring.

Lemma substring_Forall_all (P : codeunit -> Prop) i j :
  Forall P s -> Forall P (substring s i j).
Proof. intros H. unfold substring. by apply Forall_take, Forall_drop. Qed.

Lemma substring_length i j :
  j <= length s -> length (substring s i j) = j - i.
Proof. intros H. unfold substring. rewrite length_take, length_drop. lia. Qed.

(** The result of a replacement consists of code units of the input and
    of the replacements. *)
Lemma replace_build_Forall (P : codeunit -> Prop) replacement xs :
  Forall P s -> (forall x, Forall P (replacement x)) ->
  forall pos, Forall P (replace_build s replacement xs pos).
Proof.
  intros Hs Hrep. induction xs as [|x xs IH]; intros pos; simpl.
  - by apply Forall_drop.
  - destruct (pos <=? index x); [|done].
    apply Forall_app. split; [by apply substring_Forall_all|].
    apply Forall_app. split; [done|]. apply IH.
Qed.

Lemma replace_all_Forall (P : codeunit -> Prop) fuel r replacement out :
  Forall P s -> (forall x, Forall P (replacement x)) ->
  replace_all s fuel r replacement = Returns out -> Forall P out.
Proof.
  intros Hs Hrep. unfold replace_all.
  destruct (replace_matches s fuel r 0) as [xs| |]; simpl; [|done|done].
  intros [= <-]. by apply replace_build_Forall.
Qed.

End Pieces.

(** The pieces of a split consist of code units of the input other than
    the separator. *)
Lemma splitOn_Forall (P : codeunit -> Prop) sep (s : jsstring) :
  Forall P s ->
  Forall (Forall (fun c => P c /\ c <> sep)) (splitOn sep s).
Proof.
  induction s as [|c s IH]; intros Hs; simpl.
  - by repeat constructor.
  - apply Forall_cons in Hs as [Hc Hs]. specialize (IH Hs).
    destruct (c =? sep)%N eqn:E.
    + by constructor.
    + apply N.eqb_neq in E. destruct (splitOn sep s) as [|w ws]; [by repeat constructor|].
      apply Forall_cons in IH as [Hw Hws]. constructor; [|done].
      by constructor.
Qed.

(** ** Replacing the code units of a class *)

Section ReplaceClass.
Variable s : jsstring.
Variable negated : bool.
Variable items : list cls.
Variable w : jsstring.

Lemma match_at_class t :
  match_at s (Class negated items) t =
  match s !! t with
  | Some ch => if in_class negated items ch then Some (mkMatch t (S t) ∅) else None
  | None => None
  end.
Proof. reflexivity. Qed.

Lemma flat_map_outside (l : jsstring) :
  Forall (fun ch => in_class negated items ch = false) l ->
  flat_map (fun ch => if in_class negated items ch then w else [ch]) l = l.
Proof.
  induction 1 as [|ch l Hch _ IH]; simpl; [done|]. by rewrite Hch, IH.
Qed.

Lemma replace_class_from : forall fuel from,
  from <= length s -> S (length s) < fuel + from ->
  exists xs,
    replace_matches s fuel (Class negated items) from = Returns xs /\
    replace_build s (fun _ => w) xs from
    = flat_map (fun ch => if in_class negated items ch then w else [ch])
               (drop from s).
Proof.
  induction fuel as [|fuel IH]; intros from Hfrom Hfuel; [lia|]. simpl.
  destruct (exec s (Class negated items) from) as [x|] eqn:Hx.
  - apply exec_first in Hx as (Hidx & _ & Hm & Hbefore); [|exact I].
    rewrite match_at_class in Hm.
    destruct (s !! index x) as [ch|] eqn:Hch; [|done].
    destruct (in_class negated items ch) eqn:Hin; [|done].
    injection Hm as Hm.
    assert (Hlast : lastIndex x = S (index x)) by (by rewrite <- Hm).
    rewrite Hlast.
    replace (S (index x) =? index x) with false
      by (symmetry; apply Nat.eqb_neq; lia).
    pose proof (lookup_lt_Some _ _ _ Hch) as Hlt.
    destruct (IH (S (index x))) as (xs & -> & Hbuild); [lia|lia|].
    exists (x :: xs). split; [done|]. cbn [bind replace_build].
    replace (from <=? index x) with true by (symmetry; apply Nat.leb_le; lia).
    rewrite Hlast, Hbuild.
    assert (Hsplit : drop from s
                     = substring s from (index x) ++ ch :: drop (S (index x)) s).
    { rewrite <- (take_drop (index x - from) (drop from s)) at 1.
      fold (substring s from (index x)). f_equal. rewrite drop_drop.
      replace (from + (index x - from)) with (index x) by lia.
      by apply drop_S. }
    rewrite Hsplit, flat_map_app.
    rewrite (flat_map_outside (substring s from (index x))).
    + simpl. by rewrite Hin.
    + apply substring_Forall. intros t Ht ch' Hch'.
      specialize (Hbefore t Ht). rewrite match_at_class, Hch' in Hbefore.
      by destruct (in_class negated items ch').
  - exists []. split; [done|]. simpl. rewrite flat_map_outside; [done|].
    apply Forall_lookup. intros t ch Hch. rewrite lookup_drop in Hch.
    pose proof (lookup_lt_Some _ _ _ Hch) as Hlt.
    pose proof (exec_none s _ _ Hx (from + t) ltac:(lia)) as Hnone.
    rewrite match_at_class in Hnone.
    assert (Hch' : s !! (from + t) = Some ch) by exact Hch.
    rewrite Hch' in Hnone. by destruct (in_class negated items ch).
Qed.

(** Replacing every match of a one-character class by a fixed string is
    a map over the code units. *)
Lemma replace_all_class :
  replace_all s (S (S (length s))) (Class negated items) (fun _ => w)
  = Returns (flat_map (fun ch => if in_class negated items ch then w else [ch]) s).
Proof.
  unfold replace_all.
  destruct (replace_class_from (S (S (length s))) 0) as (xs & -> & Hxs);
    [lia|lia|].
  simpl. by rewrite Hxs.
Qed.

End ReplaceClass.

Section SplitPieces.
Variable s : jsstring.

(** The pieces of a split consist of code units of the input. *)
Lemma split_loop_Forall (P : codeunit -> Prop) r :
  Forall P s ->
  forall fuel p q ws,
    split_loop s fuel r p q = Returns ws -> Forall (Forall P) ws.
Proof.
  intros Hs. induction fuel as [|fuel IH]; intros p q ws; simpl; [done|].
  destruct (q <? length s).
  - destruct (match_at s r q) as [x|]; [|by apply IH].
    destruct (_ =? p); [by apply IH|].
    match goal with |- context [split_loop s fuel r ?a ?b] =>
      destruct (split_loop s fuel r a b) as [vs| |] eqn:Hvs end;
      simpl; [|done|done].
    intros [= <-]. constructor; [by apply substring_Forall_all|by eapply IH].
  - intros [= <-]. constructor; [by apply substring_Forall_all|constructor].
Qed.

Lemma split_Forall (P : codeunit -> Prop) r fuel ws :
  Forall P s -> split s fuel r = Returns ws -> Forall (Forall P) ws.
Proof.
  intros Hs. unfold split. destruct s as [|c s'] eqn:Hs'.
  - destruct (match_at [] r 0); intros [= <-]; by repeat constructor.
  - rewrite <- Hs' in *. by apply split_loop_Forall.
Qed.

End SplitPieces.

End RegExpFacts.

Module KeywordExtractorFacts.
Import JS JSFacts RegExp RegExpFacts KeywordExtractor.

(** ** The patterns of the source *)

Lemma quotedRegex_ok : wf quotedRegex /\ 0 < minlen quotedRegex /\ 1 ∈ sure quotedRegex.
Proof. split; [exact I|]. split; [cbv; lia|]. cbv. constructor. Qed.

Lemma pathRegex_ok : wf pathRegex /\ 0 < minlen pathRegex.
Proof. split; [exact I|cbv; lia]. Qed.

Lemma camelRegex_ok : wf camelRegex /\ 0 < minlen camelRegex.
Proof. split; [exact I|cbv; lia]. Qed.

Lemma snakeRegex_ok : wf snakeRegex /\ 0 < minlen snakeRegex.
Proof. split; [exact I|cbv; lia]. Qed.

Lemma spacesRegex_ok : wf spacesRegex /\ 0 < minlen spacesRegex.
Proof. split; [exact I|cbv; lia]. Qed.

(** ** Every stage returns *)

Lemma extractQuotedStrings_returns query : returns (extractQuotedStrings query).
Proof.
  destruct quotedRegex_ok as (Hwf & Hlen & Hg).
  apply while_exec_returns; [done|done| |lia|unfold fuel_for; lia].
  intros from x st Hx. apply exec_spec in Hx as (_ & _ & _ & Hcap); [|done].
  destruct (Hcap 1 Hg) as [[a b] Hab]. unfold group. rewrite Hab. simpl.
  destruct (0 <? _); by eexists.
Qed.

Lemma extractFilePaths_returns query : returns (extractFilePaths query).
Proof.
  destruct pathRegex_ok as (Hwf & Hlen).
  apply while_exec_returns; [done|done| |lia|unfold fuel_for; lia].
  intros from x st Hx. simpl. destruct (0 <? _); by eexists.
Qed.

Section Extractor.
Variable toLowerCase : jsstring -> jsstring.

(** The components kept for an identifier: those longer than two code
    units that are not stop words, in order. *)
Lemma pushParts_spec parts : forall results,
  pushParts toLowerCase parts results
  = results ++ List.filter (keepPart toLowerCase) parts.
Proof.
  unfold pushParts. induction parts as [|part parts IH]; intros results; simpl.
  - by rewrite app_nil_r.
  - rewrite IH. destruct (keepPart toLowerCase part); [|done].
    by rewrite <- app_assoc.
Qed.

Lemma extractIdentifiers_returns query :
  returns (extractIdentifiers toLowerCase query).
Proof.
  unfold extractIdentifiers, mbind, outcome_bind.
  destruct camelRegex_ok as (Hwf & Hlen). destruct snakeRegex_ok as (Hwf' & Hlen').
  match goal with |- returns (bind ?a _) => assert (Ha : returns a) end.
  { apply while_exec_returns; [done|done| |lia|unfold fuel_for; lia].
    intros from x st Hx.
    match goal with |- context [replace_all ?w _ ?r ?f] =>
      destruct (replace_all_returns w r f) as [spaced Hs]; [exact I|] end.
    unfold fuel_for. rewrite Hs. by eexists. }
  destruct Ha as [results ->]. cbn [bind].
  apply while_exec_returns; [done|done| |lia|unfold fuel_for; lia].
  intros from x st Hx. by eexists.
Qed.

Lemma extractGeneralTerms_returns query :
  returns (extractGeneralTerms toLowerCase query).
Proof.
  unfold extractGeneralTerms, fuel_for, mbind, outcome_bind.
  destruct (replace_all_returns query quotedSpanRegex (fun _ => [])) as [s1 ->];
    [exact I|]. cbn [bind].
  destruct (replace_all_returns s1 pathRegex (fun _ => [])) as [s2 ->];
    [exact I|]. cbn [bind].
  destruct (replace_all_returns s2 punctuationRegex (fun _ => js " ")) as [s3 ->];
    [exact I|]. cbn [bind].
  destruct (split_returns s3 spacesRegex) as [ws ->]; [exact I|cbv; lia|].
  cbn [bind]. by eexists.
Qed.

(** What [extractKeywords] returns, stage by stage. *)
Lemma extractKeywords_stages query r :
  extractKeywords toLowerCase query = Returns r <->
  extractQuotedStrings query = Returns (quotedStrings r) /\
  extractFilePaths query = Returns (filePaths r) /\
  extractIdentifiers toLowerCase query = Returns (identifiers r) /\
  extractGeneralTerms toLowerCase query = Returns (generalTerms r) /\
  keywords r =
    snd (addUnique toLowerCase (generalTerms r)
          (addUnique toLowerCase (identifiers r)
            (addUnique toLowerCase (filePaths r)
              (addUnique toLowerCase (quotedStrings r) (∅, []))))).
Proof.
  unfold extractKeywords, mbind, outcome_bind. split.
  - destruct (extractQuotedStrings query) as [qs| |]; simpl; [|done|done].
    destruct (extractFilePaths query) as [fs| |]; simpl; [|done|done].
    destruct (extractIdentifiers toLowerCase query) as [ids| |]; simpl; [|done|done].
    destruct (extractGeneralTerms toLowerCase query) as [gs| |]; simpl; [|done|done].
    by intros [= <-].
  - intros (-> & -> & -> & -> & Hk). simpl. destruct r; simpl in *. by rewrite Hk.
Qed.

Lemma extractKeywords_returns query :
  returns (extractKeywords toLowerCase query).
Proof.
  unfold extractKeywords, mbind, outcome_bind.
  destruct (extractQuotedStrings_returns query) as [qs ->].
  destruct (extractFilePaths_returns query) as [fs ->].
  destruct (extractIdentifiers_returns query) as [ids ->].
  destruct (extractGeneralTerms_returns query) as [gs ->].
  simpl. by eexists.
Qed.

(** ** The merge *)

Lemma addUnique_app a b st :
  addUnique toLowerCase (a ++ b) st
  = addUnique toLowerCase b (addUnique toLowerCase a st).
Proof. unfold addUnique. apply foldl_app. Qed.

Lemma addUnique_merge terms : forall seen keywords,
  addUnique toLowerCase terms (list_to_set seen, keywords)
  = (list_to_set (toLowerCase <$> merge toLowerCase seen terms) ∪ list_to_set seen,
     keywords ++ merge toLowerCase seen terms).
Proof.
  induction terms as [|t ts IH]; intros seen kws.
  - simpl. f_equal; [by rewrite (left_id_L ∅ (∪))|by rewrite app_nil_r].
  - change (addUnique toLowerCase (t :: ts) (list_to_set seen, kws))
      with (addUnique toLowerCase ts
              (if negb (has (toLowerCase t) (list_to_set seen))
                  && (1 <? length (toLowerCase t))
               then ({[toLowerCase t]} ∪ list_to_set seen, kws ++ [t])
               else (list_to_set seen, kws))).
    simpl. unfold has.
    assert (Hb : negb (bool_decide (toLowerCase t ∈ (list_to_set seen : gset jsstring)))
                 = bool_decide (toLowerCase t ∉ seen)).
    { rewrite <- bool_decide_not. apply bool_decide_ext.
      by rewrite elem_of_list_to_set. }
    rewrite Hb.
    destruct ((bool_decide (toLowerCase t ∉ seen)) && (1 <? length (toLowerCase t))).
    + change ({[toLowerCase t]} ∪ list_to_set seen : gset jsstring)
        with (list_to_set (toLowerCase t :: seen) : gset jsstring).
      rewrite IH. f_equal.
      * simpl. by rewrite (assoc_L (∪)), (comm_L (∪) _ {[toLowerCase t]}).
      * by rewrite <- app_assoc.
    + apply IH.
Qed.

Lemma merge_spec terms : forall seen,
  NoDup (toLowerCase <$> merge toLowerCase seen terms) /\
  Forall (fun t => (toLowerCase t ∉ seen) /\ 1 < length (toLowerCase t))
         (merge toLowerCase seen terms).
Proof.
  induction terms as [|t ts IH]; intros seen; simpl.
  - split; constructor.
  - destruct ((bool_decide (toLowerCase t ∉ seen)) && _) eqn:E; [|apply IH].
    apply andb_true_iff in E as [E1%bool_decide_eq_true E2%Nat.ltb_lt].
    destruct (IH (toLowerCase t :: seen)) as [Hnd Hall]. split.
    + simpl. constructor; [|done].
      intros (u & Hu & Hin)%list_elem_of_fmap.
      rewrite Forall_forall in Hall. destruct (Hall u Hin) as [Hn _].
      apply Hn. rewrite Hu. by left.
    + constructor; [done|].
      eapply Forall_impl; [exact Hall|]. simpl. intros u [Hu ?]. split; [|done].
      intros ?. apply Hu. by right.
Qed.

(** The first term of the highest-priority list leads the keywords,
    when its lower-case form is longer than one code unit. *)
Lemma merge_head t ts :
  1 < length (toLowerCase t) -> head (merge toLowerCase [] (t :: ts)) = Some t.
Proof.
  intros H%Nat.ltb_lt. cbn [merge]. rewrite H.
  rewrite bool_decide_eq_true_2; [done|]. by intros ?%elem_of_nil.
Qed.

(** The keyword list is the merge of the four categories, in priority
    order; no two keywords have the same lower-case form, and the
    lower-case form of each is longer than one code unit. *)
Lemma keywords_merge query :
  exists r,
    extractKeywords toLowerCase query = Returns r /\
    keywords r = merge toLowerCase [] (quotedStrings r ++ filePaths r ++ identifiers r
                             ++ generalTerms r) /\
    NoDup (toLowerCase <$> keywords r) /\
    Forall (fun t => 1 < length (toLowerCase t)) (keywords r).
Proof.
  destruct (extractKeywords_returns query) as [r Hr]. exists r. split; [done|].
  apply extractKeywords_stages in Hr as (_ & _ & _ & _ & Hk).
  rewrite <- !addUnique_app in Hk.
  change (∅ : gset jsstring) with (list_to_set [] : gset jsstring) in Hk.
  rewrite addUnique_merge in Hk. simpl in Hk.
  rewrite <- ?app_assoc in Hk. rewrite Hk.
  split; [done|]. destruct (merge_spec
    (quotedStrings r ++ filePaths r ++ identifiers r ++ generalTerms r) [])
    as [Hnd Hall].
  split; [done|]. eapply Forall_impl; [exact Hall|]. by intros t [_ ?].
Qed.

(** Where lower-casing never turns a string of at most one code unit
    into a longer one, no keyword is that short. *)
Lemma keywords_length query r :
  (forall t, length t <= 1 -> length (toLowerCase t) <= 1) ->
  extractKeywords toLowerCase query = Returns r ->
  Forall (fun t => 1 < length t) (keywords r).
Proof.
  intros Hlen Hr. destruct (keywords_merge query) as (r' & Hr' & _ & _ & Hall).
  rewrite Hr in Hr'. injection Hr' as <-.
  eapply Forall_impl; [exact Hall|]. simpl. intros t Ht.
  destruct (decide (length t <= 1)) as [Hle|]; [|lia].
  specialize (Hlen t Hle). lia.
Qed.

End Extractor.

(** C9. For the query [Fix the Qlogin buttonQ color in
    src/components/AuthForm.tsx] ([Q] the double quote), extractKeywords
    returns quotedStrings equal to the one-element list [login button], a
    filePaths list that contains [src/components/AuthForm.tsx], and
    keywords whose first element is [login button] - on every engine
    whose toLowerCase treats Basic Latin strings as [basicToLowerCase]
    does. *)
Theorem keyword_priority_example (toLowerCase : jsstring -> jsstring) :
  (forall s, Forall (fun c => (c < 128)%N) s -> toLowerCase s = basicToLowerCase s) ->
  exists r,
    extractKeywords toLowerCase example_query = Returns r /\
    quotedStrings r = [js "login button"] /\
    js "src/components/AuthForm.tsx" ∈ filePaths r /\
    head (keywords r) = Some (js "login button").
Proof.
  intros Hlower.
  destruct (keywords_merge toLowerCase example_query) as (r & Hr & Hk & _).
  exists r. split; [done|].
  apply extractKeywords_stages in Hr as (Hq & Hp & _).
  assert (Hq' : extractQuotedStrings example_query = Returns [js "login button"])
    by (vm_compute; reflexivity).
  assert (Hp' : extractFilePaths example_query
                = Returns [js "src/components/AuthForm.tsx"])
    by (vm_compute; reflexivity).
  rewrite Hq' in Hq. injection Hq as Hq. rewrite Hp' in Hp. injection Hp as Hp.
  split; [done|]. split; [rewrite <- Hp; by left|].
  rewrite Hk, <- Hq. apply merge_head.
  rewrite Hlower; [vm_compute; lia|].
  apply (bool_decide_unpack _). vm_compute. exact I.
Qed.

Lemma keyword_priority_example_witness :
  exists r,
    extractKeywords basicToLowerCase example_query = Returns r /\
    quotedStrings r = [js "login button"] /\
    js "src/components/AuthForm.tsx" ∈ filePaths r /\
    head (keywords r) = Some (js "login button").
Proof.
  apply (keyword_priority_example basicToLowerCase).
  intros s _. reflexivity.
Defined.

(** C7. extractKeywords is total and deterministic: for every query -
    the empty one, any sequence of code units, any run of punctuation -
    every loop exits and nothing is thrown, so the call returns a result;
    and the result is determined by the query alone. *)
Theorem extractKeywords_total_deterministic
    (toLowerCase : jsstring -> jsstring) (query : jsstring) :
  exists r,
    extractKeywords toLowerCase query = Returns r /\
    forall query' r',
      query' = query -> extractKeywords toLowerCase query' = Returns r' -> r' = r.
Proof.
  destruct (extractKeywords_returns toLowerCase query) as [r Hr].
  exists r. split; [done|]. intros query' r' -> Hr'. congruence.
Qed.

(** C10. The generalTerms list of every result has no duplicate entries;
    quotedStrings, filePaths and identifiers may each repeat an entry. *)
Theorem generalTerms_NoDup (toLowerCase : jsstring -> jsstring) :
  (forall query, exists r,
      extractKeywords toLowerCase query = Returns r /\ NoDup (generalTerms r)) /\
  (exists query r,
      extractKeywords toLowerCase query = Returns r /\ ~ NoDup (quotedStrings r)) /\
  (exists query r,
      extractKeywords toLowerCase query = Returns r /\ ~ NoDup (filePaths r)) /\
  (exists query r,
      extractKeywords toLowerCase query = Returns r /\ ~ NoDup (identifiers r)).
Proof.
  assert (Hdup : forall x : jsstring, ~ NoDup [x; x]).
  { intros x H. apply NoDup_cons in H as [H _]. apply H. by left. }
  split; [|split; [|split]].
  - intros query. destruct (extractKeywords_returns toLowerCase query) as [r Hr].
    exists r. split; [done|].
    apply extractKeywords_stages in Hr as (_ & _ & _ & Hg & _).
    unfold extractGeneralTerms, mbind, outcome_bind in Hg.
    destruct (replace_all _ _ quotedSpanRegex _) as [s1| |]; [|done|done].
    cbn [bind] in Hg.
    destruct (replace_all _ _ pathRegex _) as [s2| |]; [|done|done].
    cbn [bind] in Hg.
    destruct (replace_all _ _ punctuationRegex _) as [s3| |]; [|done|done].
    cbn [bind] in Hg.
    destruct (split _ _ _) as [ws| |]; [|done|done].
    cbn [bind] in Hg. injection Hg as <-. apply uniq_NoDup.
  - destruct (extractKeywords_returns toLowerCase (js "'ab' 'ab'")) as [r Hr].
    exists (js "'ab' 'ab'"), r. split; [done|].
    apply extractKeywords_stages in Hr as (Hq & _).
    assert (H : extractQuotedStrings (js "'ab' 'ab'") = Returns [js "ab"; js "ab"])
      by (vm_compute; reflexivity).
    rewrite H in Hq. injection Hq as <-. apply Hdup.
  - destruct (extractKeywords_returns toLowerCase (js "x/y x/y")) as [r Hr].
    exists (js "x/y x/y"), r. split; [done|].
    apply extractKeywords_stages in Hr as (_ & Hp & _).
    assert (H : extractFilePaths (js "x/y x/y") = Returns [js "x/y"; js "x/y"])
      by (vm_compute; reflexivity).
    rewrite H in Hp. injection Hp as <-. apply Hdup.
  - destruct (extractKeywords_returns toLowerCase (js "a_b a_b")) as [r Hr].
    exists (js "a_b a_b"), r. split; [done|].
    apply extractKeywords_stages in Hr as (_ & _ & Hi & _).
    assert (H : extractIdentifiers toLowerCase (js "a_b a_b")
                = Returns [js "a_b"; js "a_b"])
      by (vm_compute; reflexivity).
    rewrite H in Hi. injection Hi as <-. apply Hdup.
Qed.

(** C8, at the failing input.  The identifier stage finds nothing in the
    kebab-case token [primary-button]: neither the whole token nor its
    components [primary] and [button] are among the identifiers, although
    the stage is documented to handle kebab-case.  (The same stage does
    recognise the camelCase token [fooBar], which has a single change from
    lower to upper case.) *)
Theorem extractIdentifiers_kebab (toLowerCase : jsstring -> jsstring) :
  extractIdentifiers toLowerCase (js "primary-button") = Returns [] /\
  (exists r, extractKeywords toLowerCase (js "primary-button") = Returns r /\
             identifiers r = []) /\
  extractIdentifiers basicToLowerCase (js "fooBar")
  = Returns [js "fooBar"; js "foo"; js "Bar"].
Proof.
  assert (H : extractIdentifiers toLowerCase (js "primary-button") = Returns [])
    by (vm_compute; reflexivity).
  split; [exact H|]. split; [|vm_compute; reflexivity].
  destruct (extractKeywords_returns toLowerCase (js "primary-button")) as [r Hr].
  exists r. split; [done|].
  apply extractKeywords_stages in Hr as (_ & _ & Hi & _). congruence.
Qed.

(** C6, at the failing input.  For the query that consists of U+0130
    between double quotes, the keyword list is the single entry U+0130, one
    code unit long: its lower-case form has two code units, and the merge
    tests the length of the lower-case form, not of the term. *)
Theorem keywords_single_code_unit :
  extractKeywords basicToLowerCase [34; 304; 34]%N
  = Returns (mkExtracted [[304%N]] [[304%N]] [] [] []) /\
  length (basicToLowerCase [304%N]) = 2 /\
  Exists (fun k => length k <= 1) [[304%N]].
Proof.
  split; [vm_compute; reflexivity|]. split; [reflexivity|].
  constructor. simpl. lia.
Qed.

(** ** What the stages return *)

Lemma substring_elem_of (s : jsstring) i j t ch :
  s !! t = Some ch -> i <= t < j -> ch ∈ substring s i j.
Proof.
  intros Hs Ht. apply list_elem_of_lookup. exists (t - i). unfold substring.
  apply lookup_take_Some. split; [|lia]. rewrite lookup_drop.
  by replace (i + (t - i)) with t by lia.
Qed.

(** [filePath.replace(/\.$/, '')] removes one final dot, if there is
    one. *)
Lemma trailingDot_strip (w : jsstring) :
  replace_first w trailingDotRegex (fun _ => []) = w \/
  w = replace_first w trailingDotRegex (fun _ => []) ++ [chr "."].
Proof.
  unfold replace_first. destruct (exec w trailingDotRegex 0) as [x|] eqn:Hx;
    [|by left].
  right. apply exec_first in Hx as (_ & Hspan & _); [|exact I].
  destruct Hspan as (mid & (ch & Hch & Hin & ->) & (Hlast & Hlen)).
  apply in_class_char in Hin as ->. rewrite <- Hlast, Hlen.
  rewrite drop_all, app_nil_r. simpl.
  rewrite <- (take_drop_middle w (index x) (chr ".")) at 1 by done.
  by rewrite Hlen, drop_all.
Qed.

(** A span of the path pattern has a slash in it and consists of path
    code units. *)
Lemma pathRegex_span (query : jsstring) i j :
  i <= length query -> matches query pathRegex i j ->
  (exists t, i <= t < j /\ query !! t = Some (chr "/")) /\
  forall t, i <= t < j -> exists ch, query !! t = Some ch /\ isPathUnit ch = true.
Proof.
  intros Hi Hspan. split.
  - destruct Hspan as (m1 & Hopt & m2 & Hdirs & Hrest).
    pose proof (matches_bounds _ _ _ _ Hi Hopt) as B1.
    assert (Hm1 : m1 <= length query) by lia.
    pose proof (matches_bounds _ _ _ _ Hm1 Hdirs) as B2.
    assert (Hm2 : m2 <= length query) by lia.
    pose proof (matches_bounds _ _ _ _ Hm2 Hrest) as B3.
    destruct Hdirs as (n & Hn & _ & Hiter).
    destruct n as [|n]; [lia|]. destruct Hiter as (m3 & Hdir & Hiter).
    pose proof (matches_bounds _ _ _ _ Hm1 Hdir) as B4.
    assert (Hm3 : m3 <= length query) by lia.
    pose proof (iter_bounds query _ n (matches_bounds query _) _ _ Hm3 Hiter) as B5.
    destruct Hdir as (m4 & Hname & (ch & Hch & Hin & ->)).
    pose proof (matches_bounds _ _ _ _ Hm1 Hname) as B6.
    apply in_class_char in Hin as ->. exists m4. split; [lia|done].
  - intros t Ht.
    destruct (matches_alphabet _ _ _ _ Hi Hspan t Ht) as (ch & Hch & Ha).
    exists ch. split; [done|]. revert Ha. unfold isPathUnit.
    cbn -[isWordChar N.eqb chr]. unfold in_class. cbn -[isWordChar N.eqb chr].
    destruct (isWordChar ch), (ch =? chr ".")%N, (ch =? chr "-")%N,
      (ch =? chr "/")%N; done.
Qed.

(** Every path of the file-path stage occurs in the query, except that
    one final dot may have been removed from it; it contains a slash and
    is made of word characters, dots, hyphens and slashes only. *)
Theorem filePaths_shape (query : jsstring) :
  exists paths,
    extractFilePaths query = Returns paths /\
    Forall (fun p =>
              chr "/" ∈ p /\
              Forall (fun c => isPathUnit c = true) p /\
              (occursIn p query \/ occursIn (p ++ [chr "."]) query))
           paths.
Proof.
  destruct (extractFilePaths_returns query) as [paths Hpaths].
  exists paths. split; [done|].
  set (P := Forall (fun p : jsstring =>
                      chr "/" ∈ p /\
                      Forall (fun c => isPathUnit c = true) p /\
                      (occursIn p query \/ occursIn (p ++ [chr "."]) query))).
  assert (Hbody : forall from x (st st' : list jsstring),
            exec query pathRegex from = Some x -> P st ->
            (let w := matched query x in
             let p := replace_first w trailingDotRegex (fun _ => []) in
             if 0 <? length p then Returns (st ++ [p]) else Returns st)
            = Returns st' -> P st');
    [|exact (while_exec_invariant_exec query P pathRegex _ Hbody _ _ _ _
               (Forall_nil_2 _) Hpaths)].
  intros from x st st' Hx Hst. cbv zeta.
  set (w := matched query x).
  set (p := replace_first w trailingDotRegex (fun _ => [])).
  destruct (0 <? length p); intros [= <-]; [|done].
  apply Forall_app. split; [done|]. constructor; [|constructor].
  apply exec_first in Hx as (Hidx & Hspan & _); [|exact I].
  apply pathRegex_span in Hspan as [(t & Ht & Hslash) Hunits]; [|lia].
  assert (Hw1 : chr "/" ∈ w) by (by eapply substring_elem_of).
  assert (Hw2 : Forall (fun c => isPathUnit c = true) w).
  { apply substring_Forall. intros t' Ht' ch Hch.
    destruct (Hunits t' Ht') as (ch' & Hch' & Hok). congruence. }
  destruct (trailingDot_strip w) as [Hp|Hp]; fold p in Hp.
  - rewrite Hp. split; [done|]. split; [done|]. left. apply substring_occursIn.
  - split; [|split].
    + rewrite Hp in Hw1. apply elem_of_app in Hw1 as [?|Hdot]; [done|].
      by apply list_elem_of_singleton in Hdot.
    + rewrite Hp in Hw2. by apply Forall_app in Hw2 as [? _].
    + right. rewrite <- Hp. apply substring_occursIn.
Qed.

(** ** Quoted strings *)

Lemma m_seq (s : jsstring) r1 r2 i c k :
  m s (r1 ⋅ r2) i c k = m s r1 i c (fun j c' => m s r2 j c' k).
Proof. reflexivity. Qed.

Lemma m_class (s : jsstring) negated items i c k :
  m s (Class negated items) i c k =
  match s !! i with
  | Some ch => if in_class negated items ch then k (S i) c else None
  | None => None
  end.
Proof. reflexivity. Qed.

Lemma m_group (s : jsstring) n r i c k :
  m s (Group n r) i c k = m s r i c (fun j c' => k j (<[n := (i, j)]> c')).
Proof. reflexivity. Qed.

Lemma in_class_quotes ch : in_class false quotes ch = isQuote ch.
Proof. unfold in_class, isQuote. simpl. by rewrite orb_false_r. Qed.

Lemma in_class_not_quotes ch : in_class true quotes ch = negb (isQuote ch).
Proof. unfold in_class, isQuote. simpl. by rewrite orb_false_r. Qed.

(** A match of the quoted-string pattern: a quote, a non-empty run
    without quotes, which is the first capture, and a quote. *)
Lemma quoted_match (query : jsstring) from x :
  exec query quotedRegex from = Some x ->
  exists i j q1 q2,
    captures x !! 1 = Some (S i, j) /\ S i <= j /\
    query !! i = Some q1 /\ isQuote q1 = true /\
    query !! j = Some q2 /\ isQuote q2 = true /\
    forall t, S i <= t < j ->
      exists ch, query !! t = Some ch /\ isQuote ch = false.
Proof.
  intros Hx. apply exec_first in Hx as (_ & _ & Hm & _); [|exact I].
  unfold match_at, quotedRegex in Hm. rewrite m_seq, m_class in Hm.
  remember (index x) as i eqn:Hidx.
  destruct (query !! i) as [q1|] eqn:Hq1; [|done].
  rewrite in_class_quotes in Hm. destruct (isQuote q1) eqn:Hquote1; [|done].
  rewrite m_seq, m_group in Hm.
  apply m_matches in Hm as (j & c' & Hspan & Hm); [|exact I].
  cbv beta in Hm. rewrite m_class in Hm.
  destruct (query !! j) as [q2|] eqn:Hq2; [|done].
  rewrite in_class_quotes in Hm. destruct (isQuote q2) eqn:Hquote2; [|done].
  injection Hm as <-. cbn [captures] in *.
  pose proof (lookup_lt_Some _ _ _ Hq1) as Hi.
  exists i, j, q1, q2. split; [by rewrite lookup_insert_eq|].
  pose proof (matches_bounds query _ _ _ Hi Hspan) as Hb.
  assert (Hne : S i <= j).
  { pose proof Hspan as (n & Hn & _ & Hiter). lia. }
  split; [done|]. split; [done|]. split; [done|]. split; [done|].
  split; [done|]. intros t Ht.
  destruct (matches_alphabet query _ _ _ Hi Hspan t Ht) as (ch & Hch & Ha).
  exists ch. split; [done|]. change (in_class true quotes ch = true) in Ha.
  rewrite in_class_not_quotes in Ha. by apply negb_true_iff in Ha.
Qed.

(** Every string of the quoted-string stage stands in the query between
    two quote characters (not necessarily the same one), is not empty,
    contains no quote character and neither starts nor ends with white
    space. *)
Theorem quotedStrings_shape (query : jsstring) :
  exists quoted,
    extractQuotedStrings query = Returns quoted /\
    Forall (fun q =>
              q <> [] /\
              Forall (fun c => isQuote c = false) q /\
              (forall c, head q = Some c -> isWhiteSpace c = false) /\
              (forall c, last q = Some c -> isWhiteSpace c = false) /\
              quotedIn q query)
           quoted.
Proof.
  destruct (extractQuotedStrings_returns query) as [quoted Hquoted].
  exists quoted. split; [done|].
  set (P := Forall (fun q : jsstring =>
              q <> [] /\
              Forall (fun c => isQuote c = false) q /\
              (forall c, head q = Some c -> isWhiteSpace c = false) /\
              (forall c, last q = Some c -> isWhiteSpace c = false) /\
              quotedIn q query)).
  assert (Hbody : forall from x (st st' : list jsstring),
            exec query quotedRegex from = Some x -> P st ->
            match group query 1 x with
            | None => Raises "TypeError: match[1] is undefined"
            | Some g =>
                let content := trim g in
                if 0 <? length content then Returns (st ++ [content])
                else Returns st
            end = Returns st' -> P st');
    [|exact (while_exec_invariant_exec query P quotedRegex _ Hbody _ _ _ _
               (Forall_nil_2 _) Hquoted)].
  intros from x st st' Hx Hst.
  apply quoted_match in Hx
    as (i & j & q1 & q2 & Hcap & Hij & Hq1 & Hquote1 & Hq2 & Hquote2 & Hin).
  unfold group. rewrite Hcap. cbn [fmap option_fmap option_map]. cbv zeta.
  set (g := substring query (S i) j).
  destruct (0 <? length (trim g)) eqn:Hlen; intros [= <-]; [|done].
  apply Forall_app. split; [done|]. constructor; [|constructor].
  destruct (trim_spec g) as (pad1 & pad2 & Hg & Hpad1 & Hpad2 & Hhead & Hlast).
  assert (Hgq : Forall (fun c => isQuote c = false) g).
  { apply substring_Forall. intros t Ht ch Hch.
    destruct (Hin t Ht) as (ch' & Hch' & Hok). congruence. }
  split; [by destruct (trim g)|].
  split.
  { rewrite Hg in Hgq. apply Forall_app in Hgq as [_ Hgq].
    by apply Forall_app in Hgq as [? _]. }
  split; [done|]. split; [done|].
  exists (take i query), q1, pad1, pad2, q2, (drop (S j) query).
  split; [|done].
  rewrite <- (take_drop_middle query i q1) at 1 by done.
  f_equal. simpl. f_equal.
  rewrite <- (take_drop (j - S i) (drop (S i) query)).
  fold (substring query (S i) j). fold g. rewrite drop_drop.
  replace (S i + (j - S i)) with j by lia.
  rewrite <- (take_drop_middle (drop j query) 0 q2)
    by (rewrite lookup_drop; by replace (j + 0) with j by lia).
  simpl. rewrite drop_drop. replace (j + 1) with (S j) by lia.
  rewrite Hg at 1. by rewrite <- !app_assoc.
Qed.

(** ** Identifiers *)

Lemma in_class_upper ch :
  in_class false [CRange (chr "A") (chr "Z")] ch = isUpper ch.
Proof. unfold in_class, isUpper. simpl. by rewrite orb_false_r. Qed.

(** A span of the camelCase pattern has an upper-case letter in it. *)
Lemma camelRegex_upper (query : jsstring) i j :
  matches query camelRegex i j ->
  exists t ch, query !! t = Some ch /\ isUpper ch = true.
Proof.
  assert (Hhumps : forall a b,
            matches query (Plus (upperLetter ⋅ Plus lowerLetter)) a b ->
            exists t ch, query !! t = Some ch /\ isUpper ch = true).
  { intros a b (n & Hn & _ & Hiter). destruct n as [|n]; [lia|].
    destruct Hiter as (m1 & (m2 & (ch & Hch & Hin & ->) & _) & _).
    exists a, ch. split; [done|]. by rewrite <- in_class_upper. }
  intros [H|H].
  - destruct H as (m1 & _ & m2 & _ & m3 & H & _). by eapply Hhumps.
  - destruct H as (m1 & _ & m2 & _ & m3 & _ & m4 & H & _). by eapply Hhumps.
Qed.

(** A span of the snake_case pattern has an underscore in it. *)
Lemma snakeRegex_underscore (query : jsstring) i j :
  matches query snakeRegex i j ->
  exists t, query !! t = Some (chr "_").
Proof.
  intros (m1 & _ & m2 & _ & m3 & (n & Hn & _ & Hiter) & _).
  destruct n as [|n]; [lia|].
  destruct Hiter as (m4 & (m5 & (ch & Hch & Hin & ->) & _) & _).
  apply in_class_char in Hin as ->. by exists m2.
Qed.

Section Identifiers.
Variable toLowerCase : jsstring -> jsstring.

(** A query without an upper-case letter of Basic Latin and without an
    underscore has no identifiers: hyphenated and plain lower-case words
    are never recognised. *)
Theorem identifiers_need_upper_or_underscore (query : jsstring) :
  Forall (fun c => isUpper c || (c =? chr "_")%N = false) query ->
  extractIdentifiers toLowerCase query = Returns [].
Proof.
  intros Hq.
  assert (Hlook : forall t ch, query !! t = Some ch ->
            isUpper ch = false /\ ch <> chr "_").
  { intros t ch Hch. rewrite Forall_lookup in Hq. specialize (Hq t ch Hch).
    apply orb_false_iff in Hq as [? ?%N.eqb_neq]. done. }
  assert (Hcamel : forall t, match_at query camelRegex t = None).
  { intros t. destruct (match_at query camelRegex t) as [x|] eqn:Hx; [|done].
    apply match_at_matches in Hx as [_ Hspan]; [|exact I].
    apply camelRegex_upper in Hspan as (p & ch & Hch & Hup).
    destruct (Hlook p ch Hch). congruence. }
  assert (Hsnake : forall t, match_at query snakeRegex t = None).
  { intros t. destruct (match_at query snakeRegex t) as [x|] eqn:Hx; [|done].
    apply match_at_matches in Hx as [_ Hspan]; [|exact I].
    apply snakeRegex_underscore in Hspan as (p & Hch).
    by destruct (Hlook p _ Hch). }
  unfold extractIdentifiers, mbind, outcome_bind, fuel_for.
  rewrite while_exec_no_match by done. cbn [bind].
  by rewrite while_exec_no_match.
Qed.

End Identifiers.

Lemma identifiers_need_upper_or_underscore_witness :
  extractIdentifiers basicToLowerCase (js "update the user-auth-service page")
  = Returns [].
Proof.
  apply (identifiers_need_upper_or_underscore basicToLowerCase).
  apply (bool_decide_unpack _). vm_compute. exact I.
Defined.

Lemma in_class_lower ch :
  in_class false [CRange (chr "a") (chr "z")] ch = isLower ch.
Proof. unfold in_class, isLower. simpl. by rewrite orb_false_r. Qed.

Lemma in_class_word ch : in_class false [CWord] ch = isWordChar ch.
Proof. unfold in_class. simpl. by rewrite orb_false_r. Qed.

Lemma isWordChar_letter ch :
  isLower ch || isUpper ch = true -> isWordChar ch = true.
Proof.
  unfold isWordChar, isLower, isUpper.
  destruct ((97 <=? ch)%N && (ch <=? 122)%N), ((65 <=? ch)%N && (ch <=? 90)%N);
    simpl; done.
Qed.

Lemma camelRegex_alphabet ch :
  alphabet camelRegex ch = true -> isWordChar ch = true.
Proof.
  unfold camelRegex, Plus, lowerLetter, upperLetter. cbn [alphabet].
  rewrite !in_class_lower, !in_class_upper. intros H.
  apply isWordChar_letter. destruct (isLower ch), (isUpper ch); done.
Qed.

Lemma snakeRegex_alphabet ch :
  alphabet snakeRegex ch = true -> isWordChar ch = true.
Proof.
  unfold snakeRegex, Plus, Word, Chr. cbn [alphabet].
  rewrite !in_class_word. intros H.
  destruct (isWordChar ch) eqn:Hw; [done|]. cbn [orb] in H.
  rewrite ?orb_false_r in H. apply in_class_char in H. subst.
  by vm_compute in Hw.
Qed.

Lemma dollar_Forall (P : codeunit -> Prop) (word : jsstring) n y :
  Forall P word -> Forall P (dollar word n y).
Proof.
  intros Hw. unfold dollar, group.
  destruct (captures y !! n) as [[a b]|]; simpl; [|constructor].
  by apply substring_Forall_all.
Qed.

Section IdentifierShape.
Variable toLowerCase : jsstring -> jsstring.

Lemma pushParts_Forall (P : jsstring -> Prop) parts results :
  Forall P results ->
  (forall part, part ∈ parts -> 2 < length part -> P part) ->
  Forall P (pushParts toLowerCase parts results).
Proof.
  intros Hres Hparts. rewrite pushParts_spec. apply Forall_app. split; [done|].
  apply Forall_forall. intros part Hin.
  apply list_elem_of_In, filter_In in Hin as [Hin Hkeep].
  unfold keepPart in Hkeep. apply andb_true_iff in Hkeep as [Hlen _].
  apply Nat.ltb_lt in Hlen. apply Hparts; [by apply list_elem_of_In|done].
Qed.

(** Every identifier has at least three code units and consists of word
    characters only: no identifier contains a hyphen, a dot, a slash or
    white space. *)
Theorem identifiers_shape (query : jsstring) :
  exists ids,
    extractIdentifiers toLowerCase query = Returns ids /\
    Forall (fun id => 3 <= length id /\ Forall (fun c => isWordChar c = true) id)
           ids.
Proof.
  destruct (extractIdentifiers_returns toLowerCase query) as [ids Hids].
  exists ids. split; [done|].
  set (P := Forall (fun id : jsstring =>
                      3 <= length id /\ Forall (fun c => isWordChar c = true) id)).
  assert (Hword : forall r from x,
            wf r -> 3 <= minlen r ->
            (forall ch, alphabet r ch = true -> isWordChar ch = true) ->
            exec query r from = Some x ->
            3 <= length (matched query x) /\
            Forall (fun c => isWordChar c = true) (matched query x)).
  { intros r from x Hwf Hmin Halpha Hx.
    pose proof (exec_spec query r from x Hwf Hx) as (_ & Hlen & Hend & _).
    apply exec_first in Hx as (Hidx & Hspan & _); [|done].
    unfold matched. rewrite substring_length by done. split; [lia|].
    apply substring_Forall. intros t Ht ch Hch.
    destruct (matches_alphabet query r _ _ (proj2 Hidx) Hspan t Ht)
      as (ch' & Hch' & Ha).
    apply Halpha. congruence. }
  assert (Hparts : forall sep (w : jsstring) part,
            Forall (fun c => isWordChar c = true \/ c = sep) w ->
            part ∈ splitOn sep w -> 2 < length part ->
            3 <= length part /\ Forall (fun c => isWordChar c = true) part).
  { intros sep w part Hw Hin Hlen. split; [lia|].
    pose proof (splitOn_Forall _ sep w Hw) as Hall.
    rewrite Forall_forall in Hall. specialize (Hall part Hin).
    eapply Forall_impl; [exact Hall|]. simpl. intros c [[?|?] ?]; done. }
  unfold extractIdentifiers, mbind, outcome_bind in Hids.
  destruct (while_exec query (fuel_for query) camelRegex 0 _ [])
    as [results| |] eqn:Hcamel; cbn [bind] in Hids; [|done|done].
  assert (Hresults : P results).
  { revert Hcamel. apply (while_exec_invariant_exec query P camelRegex);
      [|constructor].
    intros from x st st' Hx Hst.
    destruct (Hword camelRegex from x I ltac:(cbv; lia) camelRegex_alphabet Hx)
      as [Hlen Hchars].
    destruct (replace_all (matched query x) _ humpRegex _) as [spaced| |] eqn:Hsp;
      cbn [bind]; [|done|done].
    intros [= <-]. apply pushParts_Forall.
    - apply Forall_app. split; [done|]. by repeat constructor.
    - intros part Hin Hpart. apply (Hparts (chr " ") spaced); [|done|done].
      eapply (replace_all_Forall (matched query x)); [| |exact Hsp].
      + eapply Forall_impl; [exact Hchars|]. simpl. by left.
      + intros y. apply Forall_app. split.
        * apply dollar_Forall. eapply Forall_impl; [exact Hchars|]. simpl. by left.
        * apply Forall_app. split; [repeat constructor; by right|].
          apply dollar_Forall. eapply Forall_impl; [exact Hchars|]. simpl. by left. }
  revert Hids. apply (while_exec_invariant_exec query P snakeRegex); [|done].
  intros from x st st' Hx Hst.
  destruct (Hword snakeRegex from x I ltac:(cbv; lia) snakeRegex_alphabet Hx)
    as [Hlen Hchars].
  intros [= <-]. apply pushParts_Forall.
  - apply Forall_app. split; [done|]. by repeat constructor.
  - intros part Hin Hpart. apply (Hparts (chr "_") (matched query x)); [|done|done].
    eapply Forall_impl; [exact Hchars|]. simpl. by left.
Qed.

End IdentifierShape.

(** ** General terms *)

Lemma in_class_space ch : in_class false [CSpace] ch = isWhiteSpace ch.
Proof. unfold in_class. simpl. by rewrite orb_false_r. Qed.

(** The white-space pattern matches wherever a white-space code unit
    stands. *)
Lemma spacesRegex_complete (s : jsstring) q ch :
  s !! q = Some ch -> match_at s spacesRegex q = None ->
  isWhiteSpace ch = false.
Proof.
  intros Hch. unfold match_at, spacesRegex, Plus. cbn [m].
  replace (S (length s - q) + 1) with (S (S (length s - q))) by lia.
  cbn [rep Nat.eqb andb pred fmap option_fmap option_map].
  rewrite Hch, in_class_space. destruct (isWhiteSpace ch); [|done].
  by destruct (match s !! S q with Some _ => _ | None => _ end).
Qed.

Lemma split_spaces_pieces (s : jsstring) : forall fuel p q ws,
  p <= q ->
  (forall t ch, p <= t < q -> s !! t = Some ch -> isWhiteSpace ch = false) ->
  split_loop s fuel spacesRegex p q = Returns ws ->
  Forall (Forall (fun c => isWhiteSpace c = false)) ws.
Proof.
  induction fuel as [|fuel IH]; intros p q ws Hpq Hclean; simpl; [done|].
  destruct (q <? length s) eqn:Hq.
  - apply Nat.ltb_lt in Hq.
    destruct (match_at s spacesRegex q) as [x|] eqn:Hx.
    + apply match_at_spec in Hx as (_ & Hlen & Hend & _); [|exact I|lia].
      change (minlen spacesRegex) with 1 in Hlen.
      replace (Nat.min (lastIndex x) (length s)) with (lastIndex x) by lia.
      replace (lastIndex x =? p) with false by (symmetry; apply Nat.eqb_neq; lia).
      destruct (split_loop s fuel spacesRegex (lastIndex x) (lastIndex x))
        as [vs| |] eqn:Hvs; simpl; [|done|done].
      intros [= <-]. constructor.
      * apply substring_Forall. intros t Ht ch Hch. by eapply Hclean.
      * eapply IH; [| |exact Hvs]; [lia|]. intros t ch Ht. lia.
    + apply IH; [lia|]. intros t ch Ht Hch.
      destruct (decide (t = q)) as [->|]; [|apply (Hclean t); [lia|done]].
      by eapply spacesRegex_complete.
  - intros [= <-]. constructor; [|constructor].
    apply substring_Forall. intros t Ht ch Hch. apply (Hclean t); [|done].
    apply Nat.ltb_ge in Hq. pose proof (lookup_lt_Some _ _ _ Hch). lia.
Qed.

(** What is not replaced by the punctuation pattern is a term unit or
    white space. *)
Lemma punctuation_rest ch :
  in_class true
    [CRange (chr "a") (chr "z"); CRange (chr "A") (chr "Z");
     CRange (chr "0") (chr "9"); CChar (chr "_"); CSpace; CChar (chr "-")] ch
  = false ->
  isTermUnit ch = true \/ isWhiteSpace ch = true.
Proof.
  unfold in_class, isTermUnit, isWordChar. cbn [existsb in_cls xorb].
  change (chr "a") with 97%N. change (chr "z") with 122%N.
  change (chr "A") with 65%N. change (chr "Z") with 90%N.
  change (chr "0") with 48%N. change (chr "9") with 57%N.
  change (chr "_") with 95%N. change (chr "-") with 45%N.
  destruct ((97 <=? ch)%N && (ch <=? 122)%N), ((65 <=? ch)%N && (ch <=? 90)%N),
    ((48 <=? ch)%N && (ch <=? 57)%N), (ch =? 95)%N, (isWhiteSpace ch),
    (ch =? 45)%N; simpl; auto; done.
Qed.

Section GeneralTerms.
Variable toLowerCase : jsstring -> jsstring.

(** Every general term is longer than two code units, has a lower-case
    form that is not a stop word, and consists of the letters and digits
    of Basic Latin, the underscore and the hyphen: a letter outside Basic
    Latin ends a term like punctuation does. *)
Theorem generalTerms_shape (query : jsstring) :
  exists terms,
    extractGeneralTerms toLowerCase query = Returns terms /\
    Forall (fun t =>
              2 < length t /\
              (toLowerCase t ∉ STOP_WORDS) /\
              Forall (fun c => isTermUnit c = true) t)
           terms.
Proof.
  destruct (extractGeneralTerms_returns toLowerCase query) as [terms Hterms].
  exists terms. split; [done|].
  unfold extractGeneralTerms, mbind, outcome_bind in Hterms.
  destruct (replace_all query _ quotedSpanRegex _) as [s1| |];
    cbn [bind] in Hterms; [|done|done].
  destruct (replace_all s1 _ pathRegex _) as [s2| |];
    cbn [bind] in Hterms; [|done|done].
  unfold fuel_for at 1, punctuationRegex in Hterms.
  rewrite replace_all_class in Hterms. cbn [bind] in Hterms.
  match type of Hterms with context [split ?s _ _] => set (s3 := s) in * end.
  assert (Hs3 : Forall (fun c => isTermUnit c = true \/ isWhiteSpace c = true) s3).
  { subst s3. apply Forall_forall. intros c Hc.
    apply list_elem_of_In, in_flat_map in Hc as (ch & _ & Hc).
    destruct (in_class true _ ch) eqn:Hin.
    - apply list_elem_of_In, list_elem_of_singleton in Hc as ->. by right.
    - apply list_elem_of_In, list_elem_of_singleton in Hc as ->.
      by apply punctuation_rest. }
  destruct (split s3 (fuel_for s3) spacesRegex) as [words| |] eqn:Hsplit;
    cbn [bind] in Hterms; [|done|done].
  injection Hterms as <-.
  assert (Hwords : Forall (Forall (fun c => isTermUnit c = true)) words).
  { pose proof (split_Forall s3 _ spacesRegex _ words Hs3 Hsplit) as H1.
    assert (H2 : Forall (Forall (fun c => isWhiteSpace c = false)) words).
    { unfold split in Hsplit. destruct s3 as [|c s3'] eqn:Hs.
      - destruct (match_at [] spacesRegex 0); injection Hsplit as <-;
          by repeat constructor.
      - rewrite <- Hs in *. eapply split_spaces_pieces; [| |exact Hsplit]; [lia|].
        intros t ch Ht. lia. }
    apply Forall_forall. intros word Hw.
    rewrite Forall_forall in H1, H2. specialize (H1 word Hw). specialize (H2 word Hw).
    apply Forall_forall. intros c Hc.
    rewrite Forall_forall in H1, H2. destruct (H1 c Hc) as [?|Hws]; [done|].
    rewrite (H2 c Hc) in Hws. done. }
  apply Forall_forall. intros t Ht.
  apply elem_of_uniq, list_elem_of_In, filter_In in Ht as [Ht Hstop].
  apply filter_In in Ht as [Ht Hlen]. apply Nat.ltb_lt in Hlen.
  split; [done|]. split.
  - unfold has in Hstop. apply negb_true_iff, bool_decide_eq_false in Hstop. done.
  - rewrite Forall_forall in Hwords. apply Hwords. by apply list_elem_of_In.
Qed.

End GeneralTerms.

(** ** The combined keyword list *)

Section Keywords.
Variable toLowerCase : jsstring -> jsstring.

Lemma merge_sublist terms : forall seen,
  merge toLowerCase seen terms `sublist_of` terms.
Proof.
  induction terms as [|t ts IH]; intros seen; simpl; [constructor|].
  destruct (_ && _); [apply sublist_skip|apply sublist_cons]; apply IH.
Qed.

Lemma merge_cover terms : forall seen t,
  t ∈ terms -> 1 < length (toLowerCase t) ->
  toLowerCase t ∈ seen \/
  exists k, k ∈ merge toLowerCase seen terms /\ toLowerCase k = toLowerCase t.
Proof.
  induction terms as [|u us IH]; intros seen t Ht Hlen; [by apply elem_of_nil in Ht|].
  simpl. apply elem_of_cons in Ht as [->|Ht].
  - destruct (decide (toLowerCase u ∈ seen)) as [Hin|Hin]; [by left|].
    rewrite bool_decide_eq_true_2 by done.
    apply Nat.ltb_lt in Hlen. rewrite Hlen. simpl.
    right. exists u. split; [by left|done].
  - destruct (bool_decide (toLowerCase u ∉ seen) && _).
    + destruct (IH (toLowerCase u :: seen) t Ht Hlen) as [Hin|(k & Hk & Hl)].
      * apply elem_of_cons in Hin as [Hin|Hin]; [|by left].
        right. exists u. split; [by left|done].
      * right. exists k. split; [by right|done].
    + by apply IH.
Qed.

(** The keywords are taken from the four categories in priority order -
    quoted strings, file paths, identifiers, general terms - without
    reordering; no two keywords have the same lower-case form, whichever
    categories they come from; and the lower-case form of each keyword is
    longer than one code unit. *)
Theorem keywords_priority_order (query : jsstring) :
  exists r,
    extractKeywords toLowerCase query = Returns r /\
    keywords r `sublist_of`
      (quotedStrings r ++ filePaths r ++ identifiers r ++ generalTerms r) /\
    NoDup (toLowerCase <$> keywords r) /\
    Forall (fun k => 1 < length (toLowerCase k)) (keywords r).
Proof.
  destruct (keywords_merge toLowerCase query) as (r & Hr & Hk & Hnd & Hall).
  exists r. split; [done|]. split; [|done].
  rewrite Hk. apply merge_sublist.
Qed.

(** No term is lost in the merge except to a keyword of the same
    lower-case form: every quoted string, file path, identifier and
    general term whose lower-case form is longer than one code unit has a
    keyword with that lower-case form. *)
Theorem keywords_cover (query : jsstring) :
  exists r,
    extractKeywords toLowerCase query = Returns r /\
    forall t,
      t ∈ quotedStrings r ++ filePaths r ++ identifiers r ++ generalTerms r ->
      1 < length (toLowerCase t) ->
      exists k, k ∈ keywords r /\ toLowerCase k = toLowerCase t.
Proof.
  destruct (keywords_merge toLowerCase query) as (r & Hr & Hk & _).
  exists r. split; [done|]. intros t Ht Hlen. rewrite Hk.
  destruct (merge_cover _ [] t Ht Hlen) as [Hin|H]; [|done].
  by apply elem_of_nil in Hin.
Qed.

End Keywords.

End KeywordExtractorFacts.

Module MemoryFacts.
Import JS JSFacts Memory.

(** ** The methods, run on a world *)

Lemma discoverMemoryPaths_run env debugMode cm tr :
  discoverMemoryPaths env debugMode (cm, tr) =
  let started :=
    [CallGetGlobalMemoryPaths debugMode; CallGetExtensionMemoryPaths] in
  match getExtensionMemoryPaths env with
  | Returns e =>
      let pProject :=
        if isTrustedFolder env
        then getEnvironmentMemoryPaths env (getDirectories env) debugMode
        else Returns [] in
      let asked :=
        if isTrustedFolder env
        then [CallGetEnvironmentMemoryPaths (getDirectories env) debugMode]
        else [] in
      (match promise_all (getGlobalMemoryPaths env debugMode) pProject with
       | Returns (g, p) => Returns (mkPaths g e p)
       | Raises x => Raises x
       | Diverges => Diverges
       end, (cm, tr ++ started ++ asked))
  | Raises x => (Raises x, (cm, tr ++ started))
  | Diverges => (Diverges, (cm, tr ++ started))
  end.
Proof.
  unfold discoverMemoryPaths, mbind, M_bind, bindM, start, call, await, ret.
  simpl. destruct (getExtensionMemoryPaths env); rewrite <- ?app_assoc; simpl;
    [|done|done].
  destruct (isTrustedFolder env); simpl.
  - rewrite <- ?app_assoc. simpl.
    by destruct (promise_all _ _) as [[g p]| |].
  - by destruct (promise_all _ _) as [[g p]| |].
Qed.

Lemma loadMemoryContents_run env paths debugMode cm tr :
  loadMemoryContents env paths debugMode (cm, tr) =
  let allPaths := uniq (global paths ++ extension paths ++ project paths) in
  let request := CallReadGeminiMdFiles allPaths debugMode (getImportFormat env) in
  match readGeminiMdFiles env allPaths debugMode (getImportFormat env) with
  | Returns allContents =>
      let loadedFiles := loadedFilesOf allContents in
      (Returns (map_of (map (fun c => (filePath c, c)) allContents)),
       (set_loadedPaths (addAll (loadedPaths cm) (map filePath loadedFiles)) cm,
        tr ++ [request; loadLog loadedFiles]))
  | Raises x => (Raises x, (cm, tr ++ [request]))
  | Diverges => (Diverges, (cm, tr ++ [request]))
  end.
Proof.
  unfold loadMemoryContents, mbind, M_bind, bindM, call, emit, markAsLoaded,
    assign, ret.
  simpl. destruct (readGeminiMdFiles env _ _ _); [|done|done].
  by rewrite <- app_assoc.
Qed.

Lemma buildMemoryFileDetails_run paths contentsMap cm tr :
  buildMemoryFileDetails paths contentsMap (cm, tr) =
  (Returns tt, (set_memoryFileDetails (detailsOf paths contentsMap []) cm, tr)).
Proof. reflexivity. Qed.

Lemma categorizeMemoryContents_run env paths contentsMap cm tr :
  categorizeMemoryContents env paths contentsMap (cm, tr) =
  let hm := categorizeAndConcatenate env paths contentsMap (getWorkingDir env) in
  (Returns tt,
   (mkManager (loadedPaths cm) (default [] (hmGlobal hm))
              (default [] (hmExtension hm))
              (if isTrustedFolder env then projectMemoryWithMcp env hm else [])
              (memoryFileDetails cm), tr)).
Proof. reflexivity. Qed.

(** A [refresh] whose collaborators all return. *)
Lemma refresh_run env cm tr g e p cs :
  globalCandidates env = Returns g ->
  extensionCandidates env = Returns e ->
  projectCandidates env = Returns p ->
  readGeminiMdFiles env (uniq (g ++ e ++ p)) (getDebugMode env)
                    (getImportFormat env) = Returns cs ->
  refresh env (cm, tr) =
  let paths := mkPaths g e p in
  let contentsMap := map_of (map (fun c => (filePath c, c)) cs) in
  let hm := categorizeAndConcatenate env paths contentsMap (getWorkingDir env) in
  let loaded := addAll ∅ (map filePath (loadedFilesOf cs)) in
  (Returns tt,
   (mkManager loaded (default [] (hmGlobal hm)) (default [] (hmExtension hm))
              (if isTrustedFolder env then projectMemoryWithMcp env hm else [])
              (detailsOf paths contentsMap []),
    tr ++ discoveryCalls env
       ++ [CallReadGeminiMdFiles (uniq (g ++ e ++ p)) (getDebugMode env)
             (getImportFormat env);
           loadLog (loadedFilesOf cs);
           MemoryChanged (size loaded)])).
Proof.
  unfold globalCandidates, extensionCandidates, projectCandidates.
  intros Hg He Hp Hr. unfold refresh.
  unfold mbind at 1, M_bind at 1, bindM at 1. cbn [assign].
  unfold mbind at 1, M_bind at 1, bindM at 1. cbn [assign].
  unfold mbind at 1, M_bind at 1, bindM at 1.
  rewrite discoverMemoryPaths_run. cbv zeta. rewrite He, Hg, Hp.
  cbn [promise_all].
  unfold mbind at 1, M_bind at 1, bindM at 1.
  rewrite loadMemoryContents_run. cbv zeta. cbn [global extension project].
  rewrite Hr.
  unfold mbind at 1, M_bind at 1, bindM at 1.
  rewrite buildMemoryFileDetails_run.
  unfold mbind at 1, M_bind at 1, bindM at 1.
  rewrite categorizeMemoryContents_run. cbv zeta.
  unfold emitMemoryChanged, mbind, M_bind, bindM, this, emit.
  cbn [loadedPaths set_loadedPaths set_memoryFileDetails memoryFileDetails
       globalMemory extensionMemory projectMemory].
  unfold discoveryCalls. rewrite <- !app_assoc. reflexivity.
Qed.

(** A [refresh] in which a discovery throws does not complete: the
    loaded-path set and the records stay cleared, the buffers keep what
    they held, and nothing is read. *)
Lemma refresh_discovery_fails env cm tr :
  fails (globalCandidates env) \/ fails (extensionCandidates env)
    \/ fails (projectCandidates env) ->
  exists o tr',
    refresh env (cm, tr)
    = (o, (set_memoryFileDetails [] (set_loadedPaths ∅ cm), tr ++ tr')) /\
    ~ returns o /\ readRequests tr' = [] /\
    forall n, MemoryChanged n ∉ tr'.
Proof.
  unfold globalCandidates, extensionCandidates, projectCandidates, fails.
  intros H. unfold refresh.
  unfold mbind at 1, M_bind at 1, bindM at 1. cbn [assign].
  unfold mbind at 1, M_bind at 1, bindM at 1. cbn [assign].
  unfold mbind at 1, M_bind at 1, bindM at 1.
  rewrite discoverMemoryPaths_run. cbv zeta.
  assert (Hno : forall n (b : bool) (l : list Event),
            (forall ev, ev ∈ l -> ev <> MemoryChanged n) ->
            MemoryChanged n ∉
              [CallGetGlobalMemoryPaths (getDebugMode env);
               CallGetExtensionMemoryPaths] ++ (if b then l else [])).
  { intros n b l Hl Hin. apply elem_of_app in Hin as [Hin|Hin].
    - apply elem_of_cons in Hin as [?|Hin]; [done|].
      apply elem_of_cons in Hin as [?|Hin]; [done|]. by apply elem_of_nil in Hin.
    - destruct b; [|by apply elem_of_nil in Hin]. by apply Hl in Hin. }
  assert (Hno' : forall n ev,
            ev ∈ [CallGetEnvironmentMemoryPaths (getDirectories env)
                    (getDebugMode env)] -> ev <> MemoryChanged n).
  { intros n ev Hin%list_elem_of_singleton. by subst. }
  destruct (getExtensionMemoryPaths env) as [e|x|] eqn:He.
  - assert (Hp : ~ returns
             (promise_all (getGlobalMemoryPaths env (getDebugMode env))
                (if isTrustedFolder env
                 then getEnvironmentMemoryPaths env (getDirectories env)
                        (getDebugMode env)
                 else Returns []))).
    { destruct H as [[x Hx]|[[x Hx]|[x Hx]]]; [| done |].
      - rewrite Hx. by intros [? ?].
      - rewrite Hx. destruct (getGlobalMemoryPaths env _); by intros [? ?]. }
    destruct (promise_all _ _) as [[g p]| |] eqn:Hall.
    + exfalso. apply Hp. by eexists.
    + eexists _, _. split; [reflexivity|]. split; [by intros [? ?]|].
      split; [by destruct (isTrustedFolder env)|]. intros n.
      by apply (Hno n (isTrustedFolder env) _ (Hno' n)).
    + eexists _, _. split; [reflexivity|]. split; [by intros [? ?]|].
      split; [by destruct (isTrustedFolder env)|]. intros n.
      by apply (Hno n (isTrustedFolder env) _ (Hno' n)).
  - eexists _, _. split; [reflexivity|]. split; [by intros [? ?]|].
    split; [done|]. intros n Hin.
    apply elem_of_cons in Hin as [?|Hin]; [done|].
    apply elem_of_cons in Hin as [?|Hin]; [done|]. by apply elem_of_nil in Hin.
  - eexists _, _. split; [reflexivity|]. split; [by intros [? ?]|].
    split; [done|]. intros n Hin.
    apply elem_of_cons in Hin as [?|Hin]; [done|].
    apply elem_of_cons in Hin as [?|Hin]; [done|]. by apply elem_of_nil in Hin.
Qed.

Lemma discoverContext_run env accessedPath trustedRoots cm tr :
  discoverContext env accessedPath trustedRoots (cm, tr) =
  if isTrustedFolder env then
    let request :=
      CallLoadJitSubdirectoryMemory accessedPath trustedRoots (loadedPaths cm)
        (getDebugMode env) in
    match loadJitSubdirectoryMemory env accessedPath trustedRoots
            (loadedPaths cm) (getDebugMode env) with
    | Returns result =>
        if length (files result) =? 0 then (Returns [], (cm, tr ++ [request]))
        else
          (Returns (concatenateInstructions env
                      (map (fun f => mkContent (jitPath f) (Some (jitContent f)))
                           (files result))
                      (getWorkingDir env)),
           (set_loadedPaths
              (addAll (loadedPaths cm) (map jitPath (files result))) cm,
            tr ++ [request]))
    | Raises x => (Raises x, (cm, tr ++ [request]))
    | Diverges => (Diverges, (cm, tr ++ [request]))
    end
  else (Returns [], (cm, tr)).
Proof.
  unfold discoverContext. destruct (isTrustedFolder env); [|done].
  unfold mbind, M_bind, bindM, this, call, markAsLoaded, assign, ret. simpl.
  destruct (loadJitSubdirectoryMemory env _ _ _ _) as [result| |]; [|done|done].
  by destruct (length (files result) =? 0).
Qed.

(** ** Sets and maps *)

Lemma addAll_spec paths : forall set : gset jsstring,
  addAll set paths = list_to_set paths ∪ set.
Proof.
  induction paths as [|p ps IH]; intros set; simpl.
  - by rewrite (left_id_L ∅ (∪)).
  - change (addAll set (p :: ps)) with (addAll ({[p]} ∪ set) ps).
    rewrite IH. by rewrite (assoc_L (∪)), (comm_L (∪) _ {[p]}).
Qed.

Lemma elem_of_addAll (paths : list jsstring) (set : gset jsstring) (q : jsstring) :
  q ∈ addAll set paths <-> q ∈ paths \/ q ∈ set.
Proof. by rewrite addAll_spec, elem_of_union, elem_of_list_to_set. Qed.

Lemma map_set_keys {V} (k : jsstring) (v : V) (mp : JsMap V) :
  fst <$> map_set k v mp
  = if bool_decide (k ∈ fst <$> mp) then fst <$> mp else (fst <$> mp) ++ [k].
Proof.
  induction mp as [|[k' v'] mp IH]; [done|].
  cbn [map_set fmap list_fmap fst].
  destruct (decide (k = k')) as [->|Hne].
  - rewrite (bool_decide_eq_true_2 (k' = k')) by done.
    rewrite bool_decide_eq_true_2 by (by left). done.
  - rewrite (bool_decide_eq_false_2 (k = k')) by done.
    cbn [fmap list_fmap fst]. fold (@fmap list _ _ _ (@fst jsstring V)).
    rewrite IH. destruct (decide (k ∈ fst <$> mp)) as [Hin|Hin].
    + rewrite !bool_decide_eq_true_2; [done|by right|done].
    + rewrite !bool_decide_eq_false_2; [done| |done].
      intros [?|?]%elem_of_cons; [by subst|done].
Qed.

Lemma map_set_NoDup {V} k (v : V) mp :
  NoDup (fst <$> mp) -> NoDup (fst <$> map_set k v mp).
Proof.
  intros Hnd. rewrite map_set_keys. case_bool_decide as Hin; [done|].
  apply NoDup_app. split; [done|]. split; [|apply NoDup_singleton].
  intros x Hx ->%list_elem_of_singleton. done.
Qed.

Lemma map_of_NoDup {V} (entries : list (jsstring * V)) :
  NoDup (fst <$> map_of entries).
Proof.
  unfold map_of.
  assert (H : forall mp : JsMap V, NoDup (fst <$> mp) ->
            NoDup (fst <$> foldl (fun mp '(k, v) => map_set k v mp) mp entries)).
  { induction entries as [|[k v] es IH]; intros mp Hmp; simpl; [done|].
    apply IH. by apply map_set_NoDup. }
  apply H. constructor.
Qed.

Lemma map_get_elem_of {V} k (v : V) mp :
  map_get k mp = Some v -> (k, v) ∈ mp.
Proof.
  induction mp as [|[k' v'] mp IH]; simpl; [done|].
  case_bool_decide as Hk.
  - intros [= ->]. subst. by left.
  - intros H. right. by apply IH.
Qed.

Lemma map_set_fresh {V} (k : jsstring) (v : V) (mp : JsMap V) :
  k ∉ fst <$> mp -> map_set k v mp = mp ++ [(k, v)].
Proof.
  induction mp as [|[k' v'] mp IH]; [done|].
  cbn [map_set fmap list_fmap fst]. intros Hk.
  rewrite bool_decide_eq_false_2 by (intros ->; apply Hk; by left).
  cbn [app]. f_equal. apply IH. intros ?. apply Hk. by right.
Qed.

(** A map built from entries with distinct keys lists them as given. *)
Lemma map_of_distinct {V} (entries : list (jsstring * V)) :
  NoDup (fst <$> entries) -> map_of entries = entries.
Proof.
  unfold map_of.
  assert (H : forall mp : JsMap V, NoDup (fst <$> (mp ++ entries)) ->
            foldl (fun mp '(k, v) => map_set k v mp) mp entries = mp ++ entries).
  { induction entries as [|[k v] es IH]; intros mp Hnd; simpl.
    - by rewrite app_nil_r.
    - rewrite map_set_fresh.
      + rewrite IH; rewrite <- app_assoc; done.
      + rewrite fmap_app in Hnd. apply NoDup_app in Hnd as (_ & Hdisj & _).
        intros Hk. apply (Hdisj k Hk). by left. }
  intros Hnd. by apply (H []).
Qed.

Lemma detailsOf_spec paths (mp : JsMap GeminiFileContent) : forall details,
  detailsOf paths mp details = details ++ omap (detailOf paths) mp.
Proof.
  unfold detailsOf. induction mp as [|[k c] mp IH]; intros details; simpl.
  - by rewrite app_nil_r.
  - rewrite IH. unfold detailOf at 2. simpl. destruct (content c) as [text|]; simpl.
    + rewrite <- app_assoc. simpl. unfold tierOf. simpl.
      rewrite (bool_decide_ext (k ∈ (list_to_set (global paths) : gset jsstring))
                 (k ∈ global paths)) by apply elem_of_list_to_set.
      rewrite (bool_decide_ext (k ∈ (list_to_set (extension paths) : gset jsstring))
                 (k ∈ extension paths)) by apply elem_of_list_to_set.
      done.
    + done.
Qed.

Lemma elem_of_details paths (mp : JsMap GeminiFileContent) d :
  d ∈ detailsOf paths mp [] <->
  exists k c text, (k, c) ∈ mp /\ content c = Some text /\
                   d = mkDetail k (tierOf paths k) (length text).
Proof.
  rewrite detailsOf_spec. simpl. rewrite list_elem_of_omap. split.
  - intros ([k c] & Hin & Hd). unfold detailOf in Hd. simpl in Hd.
    destruct (content c) as [text|] eqn:Hc; [|done]. injection Hd as <-.
    by exists k, c, text.
  - intros (k & c & text & Hin & Hc & ->). exists (k, c). split; [done|].
    unfold detailOf. simpl. by rewrite Hc.
Qed.

Lemma details_NoDup paths (mp : JsMap GeminiFileContent) :
  NoDup (fst <$> mp) -> NoDup (path <$> detailsOf paths mp []).
Proof.
  rewrite detailsOf_spec. simpl.
  induction mp as [|[k c] mp IH]; simpl; [constructor|].
  intros [Hk Hnd]%NoDup_cons. unfold detailOf at 1. simpl.
  destruct (content c) as [text|]; simpl; [|by apply IH].
  constructor; [|by apply IH].
  intros (d & Hd & Hin)%list_elem_of_fmap.
  apply list_elem_of_omap in Hin as ([k' c'] & Hin & Hd').
  unfold detailOf in Hd'. simpl in Hd'.
  destruct (content c'); [|done]. injection Hd' as <-. simpl in Hd. subst k'.
  apply Hk. apply list_elem_of_fmap. by exists (k, c').
Qed.

Lemma map_get_map_set {V} (k k' : jsstring) (v : V) (mp : JsMap V) :
  map_get k' (map_set k v mp)
  = if bool_decide (k' = k) then Some v else map_get k' mp.
Proof.
  induction mp as [|[k0 v0] mp IH]; [done|].
  cbn [map_set]. destruct (decide (k = k0)) as [->|Hne].
  - rewrite (bool_decide_eq_true_2 (k0 = k0)) by done. cbn [map_get].
    by destruct (bool_decide (k' = k0)).
  - rewrite (bool_decide_eq_false_2 (k = k0)) by done. cbn [map_get].
    rewrite IH. destruct (decide (k' = k0)) as [->|Hne'].
    + rewrite (bool_decide_eq_true_2 (k0 = k0)) by done.
      by rewrite (bool_decide_eq_false_2 (k0 = k)) by done.
    + by rewrite (bool_decide_eq_false_2 (k' = k0)) by done.
Qed.

Lemma map_of_snoc {V} (entries : list (jsstring * V)) k v :
  map_of (entries ++ [(k, v)]) = map_set k v (map_of entries).
Proof. unfold map_of. by rewrite foldl_app. Qed.

Lemma elem_of_map_get {V} (k : jsstring) (v : V) (mp : JsMap V) :
  NoDup (fst <$> mp) -> (k, v) ∈ mp -> map_get k mp = Some v.
Proof.
  induction mp as [|[k0 v0] mp IH]; [by intros _ ?%elem_of_nil|].
  cbn [fmap list_fmap fst]. intros [Hk0 Hnd]%NoDup_cons [Heq|Hin]%elem_of_cons.
  - injection Heq as -> ->. cbn [map_get]. by rewrite bool_decide_eq_true_2.
  - cbn [map_get]. rewrite bool_decide_eq_false_2; [by apply IH|].
    intros ->. apply Hk0. apply list_elem_of_fmap. by exists (k0, v).
Qed.

(** The map made of the reader's answer holds, for a path, the last
    entry of the answer with that path. *)
Lemma map_get_contents (cs : list GeminiFileContent) (q : jsstring) c :
  map_get q (map_of (map (fun c => (filePath c, c)) cs)) = Some c <->
  filePath c = q /\
  exists before after,
    cs = before ++ c :: after /\ Forall (fun c' => filePath c' <> q) after.
Proof.
  induction cs as [|c0 cs IH] using rev_ind.
  - split; [done|]. intros (_ & before & after & Hcs & _).
    by destruct before.
  - rewrite map_app. cbn [map]. rewrite map_of_snoc, map_get_map_set.
    destruct (decide (q = filePath c0)) as [->|Hne].
    + rewrite bool_decide_eq_true_2 by done. split.
      * intros [= <-]. split; [done|]. exists cs, []. split; [done|constructor].
      * intros (_ & before & after & Hcs & Hafter).
        destruct after as [|a after _] using rev_ind.
        { apply app_inj_tail in Hcs as [_ ->]. done. }
        exfalso. rewrite app_comm_cons, app_assoc in Hcs.
        apply app_inj_tail in Hcs as [_ ->].
        apply Forall_app in Hafter as [_ Ha]. by inversion Ha.
    + rewrite bool_decide_eq_false_2 by done. rewrite IH. split.
      * intros (Hq & before & after & -> & Hafter). split; [done|].
        exists before, (after ++ [c0]). split; [by rewrite <- app_assoc|].
        apply Forall_app. split; [done|]. constructor; [|constructor].
        by intros ?.
      * intros (Hq & before & after & Hcs & Hafter). split; [done|].
        destruct after as [|a after _] using rev_ind.
        { apply app_inj_tail in Hcs as [_ ->]. done. }
        rewrite app_comm_cons, app_assoc in Hcs.
        apply app_inj_tail in Hcs as [-> ->].
        exists before, after. split; [done|].
        by apply Forall_app in Hafter as [? _].
Qed.

(** The records of a [refresh], by the reader's answer: one for the last
    entry of each path, when its content is not null. *)
Lemma details_contents paths (cs : list GeminiFileContent) d :
  d ∈ detailsOf paths (map_of (map (fun c => (filePath c, c)) cs)) [] <->
  exists before c after text,
    cs = before ++ c :: after /\
    Forall (fun c' => filePath c' <> filePath c) after /\
    content c = Some text /\
    d = mkDetail (filePath c) (tierOf paths (filePath c)) (length text).
Proof.
  rewrite elem_of_details. split.
  - intros (k & c & text & Hin & Hc & ->).
    apply elem_of_map_get in Hin; [|apply map_of_NoDup].
    apply map_get_contents in Hin as (<- & before & after & Hcs & Hafter).
    by exists before, c, after, text.
  - intros (before & c & after & text & Hcs & Hafter & Hc & ->).
    exists (filePath c), c, text. split; [|done].
    apply map_get_elem_of, map_get_contents. split; [done|].
    by exists before, after.
Qed.

Lemma readRequests_app tr tr' :
  readRequests (tr ++ tr') = readRequests tr ++ readRequests tr'.
Proof. unfold readRequests. apply flat_map_app. Qed.

Lemma readRequests_refresh env request (loaded : list GeminiFileContent) n fmt :
  readRequests
    (discoveryCalls env
       ++ [CallReadGeminiMdFiles request (getDebugMode env) fmt;
           loadLog loaded; MemoryChanged n])
  = [request].
Proof.
  rewrite readRequests_app. unfold discoveryCalls, loadLog.
  destruct (isTrustedFolder env); simpl; by destruct (0 <? _).
Qed.

(** ** The upward walk *)

Lemma jitWalk_idempotent fs trustedRoots hops : forall dir (loaded loaded' : gset jsstring),
  loaded ⊆ loaded' ->
  (forall f, f ∈ jitWalk fs hops dir trustedRoots loaded -> jitPath f ∈ loaded') ->
  jitWalk fs hops dir trustedRoots loaded' = [].
Proof.
  induction hops as [|hops IH]; intros dir loaded loaded' Hsub Hnew; [done|].
  simpl in *.
  set (p := memoryFileIn fs dir) in *.
  assert (Hhere : (if bool_decide (p ∈ loaded') then []
                   else match readFile fs p with
                        | Some text => [mkJitFile p text]
                        | None => []
                        end) = []).
  { destruct (decide (p ∈ loaded')) as [Hp'|Hp'].
    { by rewrite bool_decide_eq_true_2. }
    rewrite bool_decide_eq_false_2 by done.
    destruct (readFile fs p) as [text|] eqn:Hread; [|done].
    exfalso. apply Hp'. destruct (decide (p ∈ loaded)) as [Hp|Hp]; [by apply Hsub|].
    apply (Hnew (mkJitFile p text)).
    rewrite bool_decide_eq_false_2 by done. by left. }
  rewrite Hhere. simpl.
  destruct (bool_decide (dir ∈ trustedRoots) || bool_decide (dirname fs dir = dir));
    [done|].
  rewrite (left_id_L ∅ (∪)).
  eapply IH; [|intros f Hf; apply Hnew; apply elem_of_app; right; exact Hf].
  intros q [Hq|Hq]%elem_of_union; [|by apply Hsub].
  apply elem_of_list_to_set, list_elem_of_fmap in Hq as (f & -> & Hf).
  apply Hnew. apply elem_of_app. by left.
Qed.

(** ** The contract of the ContextManager *)

(** C1. In an untrusted folder, [discoverContext] returns the empty
    string for every accessed path, without a call to the walk and
    without a change to the object; and a [refresh] whose collaborators
    return completes with an empty project-tier buffer
    ([getEnvironmentMemory] is the empty string, whatever MCP instruction
    text and project content there is), asks for no project paths and
    reads the global and extension candidates only. *)
Theorem trust_gate env cm tr g e cs :
  isTrustedFolder env = false ->
  globalCandidates env = Returns g ->
  extensionCandidates env = Returns e ->
  readGeminiMdFiles env (uniq (g ++ e ++ [])) (getDebugMode env)
                    (getImportFormat env) = Returns cs ->
  (exists cm' tr',
      refresh env (cm, tr) = (Returns tt, (cm', tr ++ tr')) /\
      getEnvironmentMemory cm' = [] /\
      readRequests tr' = [uniq (g ++ e ++ [])] /\
      Forall (fun ev => isDiscovery ev = false) tr') /\
  (forall accessedPath trustedRoots,
      discoverContext env accessedPath trustedRoots (cm, tr)
      = (Returns [], (cm, tr))).
Proof.
  intros Ht Hg He Hr. split.
  - assert (Hp : projectCandidates env = Returns [])
      by (unfold projectCandidates; by rewrite Ht).
    rewrite (refresh_run env cm tr g e [] cs Hg He Hp Hr). cbv zeta.
    eexists _, _. split; [reflexivity|].
    split; [unfold getEnvironmentMemory; simpl; by rewrite Ht|].
    split; [apply readRequests_refresh|].
    unfold discoveryCalls, loadLog. rewrite Ht. simpl.
    repeat constructor. by destruct (0 <? _).
  - intros accessedPath trustedRoots. rewrite discoverContext_run. by rewrite Ht.
Qed.

Lemma trust_gate_witness :
  (exists cm' tr',
      refresh (example_env false (Returns [extensionFile])) (initial, [])
      = (Returns tt, (cm', [] ++ tr')) /\
      getEnvironmentMemory cm' = [] /\
      readRequests tr' = [uniq ([globalFile] ++ [extensionFile] ++ [])] /\
      Forall (fun ev => isDiscovery ev = false) tr') /\
  (forall accessedPath trustedRoots,
      discoverContext (example_env false (Returns [extensionFile]))
        accessedPath trustedRoots (initial, [])
      = (Returns [], (initial, []))).
Proof.
  apply (trust_gate (example_env false (Returns [extensionFile])) initial []
           [globalFile] [extensionFile]
           [mkContent globalFile (Some (js "global rules"));
            mkContent extensionFile (Some (js "extension rules"))]);
    reflexivity.
Defined.

Lemma discoverContext_spec_run env fs hopLimit accessedPath trustedRoots cm tr :
  discoverContext (with_jit (loadJitSubdirectoryMemory_spec fs hopLimit) env)
                  accessedPath trustedRoots (cm, tr) =
  if isTrustedFolder env then
    let request :=
      CallLoadJitSubdirectoryMemory accessedPath trustedRoots (loadedPaths cm)
        (getDebugMode env) in
    let new := jitWalk fs hopLimit (dirname fs accessedPath) trustedRoots
                       (loadedPaths cm) in
    if length new =? 0 then (Returns [], (cm, tr ++ [request]))
    else
      (Returns (concatenateInstructions env
                  (map (fun f => mkContent (jitPath f) (Some (jitContent f))) new)
                  (getWorkingDir env)),
       (set_loadedPaths (addAll (loadedPaths cm) (map jitPath new)) cm,
        tr ++ [request]))
  else (Returns [], (cm, tr)).
Proof. by rewrite discoverContext_run. Qed.

(** C2. A call of [discoverContext] never removes a path from the
    loaded-path set; and with the walk of the specification, over one
    file system, a second call for the same path returns the empty
    string and leaves the object, hence the size of the loaded-path set,
    as the first call left it. *)
Theorem discoverContext_idempotent :
  (forall env accessedPath trustedRoots w,
      loadedPaths (fst w)
      ⊆ loadedPaths (fst (snd (discoverContext env accessedPath trustedRoots w))))
  /\
  (forall env fs hopLimit accessedPath trustedRoots w,
      let env' := with_jit (loadJitSubdirectoryMemory_spec fs hopLimit) env in
      let w1 := snd (discoverContext env' accessedPath trustedRoots w) in
      let second := discoverContext env' accessedPath trustedRoots w1 in
      fst second = Returns [] /\
      fst (snd second) = fst w1 /\
      size (loadedPaths (fst (snd second))) = size (loadedPaths (fst w1))).
Proof.
  split.
  - intros env accessedPath trustedRoots [cm tr]. rewrite discoverContext_run.
    destruct (isTrustedFolder env); [|done]. cbv zeta.
    destruct (loadJitSubdirectoryMemory env _ _ _ _) as [result| |]; [|done|done].
    destruct (length (files result) =? 0); [done|]. simpl.
    intros q Hq. apply elem_of_addAll. by right.
  - intros env fs hopLimit accessedPath trustedRoots [cm tr] env' w1 second.
    assert (Hsecond : fst second = Returns [] /\ fst (snd second) = fst w1);
      [|by destruct Hsecond as [? ->]].
    subst second w1 env'. rewrite (discoverContext_spec_run env fs hopLimit _ _ cm tr).
    destruct (isTrustedFolder env) eqn:Ht;
      [|cbn [snd]; by rewrite discoverContext_spec_run, Ht].
    cbv zeta.
    set (new := jitWalk fs hopLimit (dirname fs accessedPath) trustedRoots
                  (loadedPaths cm)).
    assert (Hwalk : forall loaded' : gset jsstring,
              loadedPaths cm ⊆ loaded' ->
              (forall f, f ∈ new -> jitPath f ∈ loaded') ->
              jitWalk fs hopLimit (dirname fs accessedPath) trustedRoots
                      loaded' = []).
    { intros loaded' H1 H2. by eapply jitWalk_idempotent. }
    destruct (length new =? 0) eqn:Hlen; cbn [snd];
      rewrite discoverContext_spec_run, Ht; cbv zeta.
    + rewrite Hwalk; [done|done|].
      apply Nat.eqb_eq, nil_length_inv in Hlen. rewrite Hlen.
      by intros f ?%elem_of_nil.
    + cbn [loadedPaths set_loadedPaths]. rewrite Hwalk; [done| |].
      * intros q Hq. apply elem_of_addAll. by right.
      * intros f Hf. apply elem_of_addAll. left.
        apply list_elem_of_fmap. by exists f.
Qed.

(** C3, as stated, fails: when the extension registry throws, [refresh]
    throws, and does not behave as if the extension tier had been
    empty. *)
Lemma tier_isolation_counterexample :
  ~ tier_isolation (example_env true (Raises "extension registry"))
      (initial, []).
Proof. intros [H _]. vm_compute in H. discriminate H. Qed.

(** C3, amended.  When the discovery of a tier throws, [refresh] does not
    complete: nothing is read, the loaded-path set and the records are
    left cleared, the tier buffers keep what they held, and no
    memory-changed event is emitted. *)
Theorem discovery_failure_aborts env cm tr :
  fails (globalCandidates env) \/ fails (extensionCandidates env)
    \/ fails (projectCandidates env) ->
  exists o cm' tr',
    refresh env (cm, tr) = (o, (cm', tr ++ tr')) /\
    ~ returns o /\
    readRequests tr' = [] /\
    (forall n, MemoryChanged n ∉ tr') /\
    loadedPaths cm' = ∅ /\ memoryFileDetails cm' = [] /\
    globalMemory cm' = globalMemory cm /\
    extensionMemory cm' = extensionMemory cm /\
    projectMemory cm' = projectMemory cm.
Proof.
  intros H.
  destruct (refresh_discovery_fails env cm tr H) as (o & tr' & Hrun & Ho & Hreq & Hev).
  exists o, (set_memoryFileDetails [] (set_loadedPaths ∅ cm)), tr'.
  split; [exact Hrun|]. by repeat split.
Qed.

Lemma discovery_failure_aborts_witness :
  exists o cm' tr',
    refresh (example_env true (Raises "extension registry")) (initial, [])
    = (o, (cm', [] ++ tr')) /\
    ~ returns o /\
    readRequests tr' = [] /\
    (forall n, MemoryChanged n ∉ tr') /\
    loadedPaths cm' = ∅ /\ memoryFileDetails cm' = [] /\
    globalMemory cm' = globalMemory initial /\
    extensionMemory cm' = extensionMemory initial /\
    projectMemory cm' = projectMemory initial.
Proof.
  apply (discovery_failure_aborts
           (example_env true (Raises "extension registry")) initial []).
  right. left. by eexists.
Defined.

(** C4. In a [refresh] whose collaborators return, the candidates of the
    three tiers are read in one request that names each of them exactly
    once; at most one record is made per path; a record is made for a
    path exactly when the reader's (last) answer for that path has a
    content, and it carries the length of that content and the
    highest-priority tier that names the path, global before extension
    before project. *)
Theorem dedup_tie_break env cm tr g e p cs :
  globalCandidates env = Returns g ->
  extensionCandidates env = Returns e ->
  projectCandidates env = Returns p ->
  readGeminiMdFiles env (uniq (g ++ e ++ p)) (getDebugMode env)
                    (getImportFormat env) = Returns cs ->
  exists cm' tr',
    refresh env (cm, tr) = (Returns tt, (cm', tr ++ tr')) /\
    (exists request,
        readRequests tr' = [request] /\ NoDup request /\
        forall q, q ∈ request <-> q ∈ g \/ q ∈ e \/ q ∈ p) /\
    NoDup (path <$> memoryFileDetails cm') /\
    (forall d, d ∈ memoryFileDetails cm' ->
               tier d = tierOf (mkPaths g e p) (path d)) /\
    (forall d, d ∈ memoryFileDetails cm' ->
               (path d ∈ g -> tier d = TierGlobal) /\
               (path d ∉ g -> path d ∈ e -> tier d = TierExtension) /\
               (path d ∉ g -> path d ∉ e -> tier d = TierProject)) /\
    (forall d,
        d ∈ memoryFileDetails cm' <->
        exists before c after text,
          cs = before ++ c :: after /\
          Forall (fun c' => filePath c' <> filePath c) after /\
          content c = Some text /\
          d = mkDetail (filePath c) (tierOf (mkPaths g e p) (filePath c))
                       (length text)).
Proof.
  intros Hg He Hp Hr.
  rewrite (refresh_run env cm tr g e p cs Hg He Hp Hr). cbv zeta.
  eexists _, _. split; [reflexivity|]. cbn [memoryFileDetails].
  split; [|split; [|split; [|split]]].
  - exists (uniq (g ++ e ++ p)). split; [apply readRequests_refresh|].
    split; [apply uniq_NoDup|]. intros q.
    by rewrite elem_of_uniq, !elem_of_app.
  - apply details_NoDup, map_of_NoDup.
  - intros d (k & c & text & _ & _ & ->)%elem_of_details. done.
  - intros d (k & c & text & _ & _ & ->)%elem_of_details.
    unfold tierOf. cbn [path tier global extension].
    destruct (decide (k ∈ g)) as [Hkg|Hkg].
    + rewrite (bool_decide_eq_true_2 (k ∈ g)) by done. by repeat split.
    + rewrite (bool_decide_eq_false_2 (k ∈ g)) by done.
      destruct (decide (k ∈ e)) as [Hke|Hke].
      * rewrite (bool_decide_eq_true_2 (k ∈ e)) by done. by repeat split.
      * rewrite (bool_decide_eq_false_2 (k ∈ e)) by done. by repeat split.
  - intros d. apply details_contents.
Qed.

Lemma dedup_tie_break_witness :
  exists cm' tr',
    refresh (example_env true (Returns [extensionFile])) (initial, [])
    = (Returns tt, (cm', [] ++ tr')) /\
    (exists request,
        readRequests tr' = [request] /\ NoDup request /\
        forall q, q ∈ request <->
                  q ∈ [globalFile] \/ q ∈ [extensionFile]
                  \/ q ∈ [extensionFile; projectFile; brokenFile]) /\
    NoDup (path <$> memoryFileDetails cm') /\
    (forall d, d ∈ memoryFileDetails cm' ->
               tier d = tierOf (mkPaths [globalFile] [extensionFile]
                                  [extensionFile; projectFile; brokenFile])
                               (path d)) /\
    (forall d, d ∈ memoryFileDetails cm' ->
               (path d ∈ [globalFile] -> tier d = TierGlobal) /\
               (path d ∉ [globalFile] -> path d ∈ [extensionFile] ->
                tier d = TierExtension) /\
               (path d ∉ [globalFile] -> path d ∉ [extensionFile] ->
                tier d = TierProject)) /\
    (forall d,
        d ∈ memoryFileDetails cm' <->
        exists before c after text,
          [mkContent globalFile (Some (js "global rules"));
           mkContent extensionFile (Some (js "extension rules"));
           mkContent projectFile (Some (js "project rules"));
           mkContent brokenFile None]
          = before ++ c :: after /\
          Forall (fun c' => filePath c' <> filePath c) after /\
          content c = Some text /\
          d = mkDetail (filePath c)
                (tierOf (mkPaths [globalFile] [extensionFile]
                           [extensionFile; projectFile; brokenFile])
                        (filePath c))
                (length text)).
Proof.
  apply (dedup_tie_break (example_env true (Returns [extensionFile])) initial []
           [globalFile] [extensionFile] [extensionFile; projectFile; brokenFile]);
    reflexivity.
Defined.

(** The reader of the specification, asked for distinct paths. *)
Lemma spec_reader_map readFile (paths : list jsstring) :
  NoDup paths ->
  map_of (map (fun c => (filePath c, c))
              (map (fun p => mkContent p (readFile p)) paths))
  = map (fun p => (p, mkContent p (readFile p))) paths.
Proof.
  intros Hnd. rewrite map_map. simpl. apply map_of_distinct.
  change (fst <$> map (fun p => (p, mkContent p (readFile p))) paths)
    with (map fst (map (fun p => (p, mkContent p (readFile p))) paths)).
  rewrite map_map. simpl. by rewrite map_id.
Qed.

Lemma spec_reader_loaded readFile (paths : list jsstring) q :
  q ∈ map filePath (loadedFilesOf (map (fun p => mkContent p (readFile p)) paths))
  <-> q ∈ paths /\ readFile q <> None.
Proof.
  unfold loadedFilesOf.
  change (map filePath ?l) with (filePath <$> l).
  rewrite list_elem_of_fmap. split.
  - intros (c & -> & Hc). apply list_elem_of_In, filter_In in Hc as [Hin Hc].
    apply list_elem_of_In, (list_elem_of_fmap (fun p => mkContent p (readFile p)))
      in Hin as (p' & -> & Hp').
    simpl in *. split; [done|]. by apply bool_decide_eq_true in Hc.
  - intros [Hin Hread]. exists (mkContent q (readFile q)). split; [done|].
    apply list_elem_of_In, filter_In. split.
    + apply list_elem_of_In, (list_elem_of_fmap (fun p => mkContent p (readFile p))).
      by exists q.
    + simpl. by apply bool_decide_eq_true.
Qed.

(** C5. With the reader of the specification, a candidate path whose
    read fails does not stop [refresh]: the call completes, the path is
    neither in the loaded-path set nor in the records, every candidate
    that can be read is in both, and the next [refresh] asks for the
    path again. *)
Theorem read_failure_isolated env readFile cm tr g e p q :
  globalCandidates env = Returns g ->
  extensionCandidates env = Returns e ->
  projectCandidates env = Returns p ->
  q ∈ g ++ e ++ p ->
  readFile q = None ->
  let env' := with_reader (readGeminiMdFiles_spec readFile) env in
  exists cm' tr',
    refresh env' (cm, tr) = (Returns tt, (cm', tr ++ tr')) /\
    (q ∉ loadedPaths cm') /\
    (forall d, d ∈ memoryFileDetails cm' -> path d <> q) /\
    (forall q' text,
        q' ∈ g ++ e ++ p -> readFile q' = Some text ->
        q' ∈ loadedPaths cm' /\
        exists d, d ∈ memoryFileDetails cm' /\ path d = q'
                  /\ chars d = length text) /\
    exists cm'' tr'' request,
      refresh env' (cm', tr ++ tr') = (Returns tt, (cm'', (tr ++ tr') ++ tr'')) /\
      readRequests tr'' = [request] /\ q ∈ request.
Proof.
  intros Hg He Hp Hq Hfail env'.
  set (allPaths := uniq (g ++ e ++ p)).
  set (cs := map (fun p => mkContent p (readFile p)) allPaths).
  assert (Hr : readGeminiMdFiles env' allPaths (getDebugMode env')
                 (getImportFormat env') = Returns cs) by reflexivity.
  assert (Hrun : forall cm tr, refresh env' (cm, tr) = _)
    by (intros cm0 tr0; exact (refresh_run env' cm0 tr0 g e p cs Hg He Hp Hr)).
  cbv zeta in Hrun. rewrite Hrun.
  eexists _, _. split; [reflexivity|].
  cbn [loadedPaths memoryFileDetails].
  assert (Hmap : map_of (map (fun c => (filePath c, c)) cs)
                 = map (fun p => (p, mkContent p (readFile p))) allPaths)
    by (apply spec_reader_map, uniq_NoDup).
  rewrite Hmap.
  split; [|split; [|split]].
  - rewrite elem_of_addAll. intros [Hin|Hin]; [|by apply elem_of_empty in Hin].
    apply spec_reader_loaded in Hin as [_ Hread]. done.
  - intros d (k & c & text & Hin & Hc & ->)%elem_of_details. simpl. intros ->.
    apply (list_elem_of_fmap (fun p => (p, mkContent p (readFile p)))) in Hin
      as (k & [= -> ->] & _).
    simpl in Hc. congruence.
  - intros q' text Hq' Hread. split.
    + apply elem_of_addAll. left. apply spec_reader_loaded.
      split; [by apply elem_of_uniq|congruence].
    + exists (mkDetail q' (tierOf (mkPaths g e p) q') (length text)).
      split; [|split; reflexivity].
      apply elem_of_details. exists q', (mkContent q' (readFile q')), text.
      split; [|done].
      apply (list_elem_of_fmap (fun p => (p, mkContent p (readFile p)))).
      exists q'. split; [done|]. by apply elem_of_uniq.
  - rewrite Hrun. eexists _, _, _. split; [reflexivity|].
    split; [apply readRequests_refresh|]. by apply elem_of_uniq.
Qed.

Lemma read_failure_isolated_witness :
  let env' := with_reader (readGeminiMdFiles_spec example_readFile)
                (example_env true (Returns [extensionFile])) in
  exists cm' tr',
    refresh env' (initial, []) = (Returns tt, (cm', [] ++ tr')) /\
    (brokenFile ∉ loadedPaths cm') /\
    (forall d, d ∈ memoryFileDetails cm' -> path d <> brokenFile) /\
    (forall q' text,
        q' ∈ [globalFile] ++ [extensionFile]
              ++ [extensionFile; projectFile; brokenFile] ->
        example_readFile q' = Some text ->
        q' ∈ loadedPaths cm' /\
        exists d, d ∈ memoryFileDetails cm' /\ path d = q'
                  /\ chars d = length text) /\
    exists cm'' tr'' request,
      refresh env' (cm', [] ++ tr') = (Returns tt, (cm'', ([] ++ tr') ++ tr'')) /\
      readRequests tr'' = [request] /\ brokenFile ∈ request.
Proof.
  apply (read_failure_isolated (example_env true (Returns [extensionFile]))
           example_readFile initial []
           [globalFile] [extensionFile] [extensionFile; projectFile; brokenFile]
           brokenFile); try reflexivity.
  apply (bool_decide_unpack _). vm_compute. exact I.
Defined.


(** ** Every run of [refresh] *)

(** Either the three discoveries and the reader return, or one of them
    throws or never settles; [refresh] then stops there, leaves the
    object cleared and emits no memory-changed event, whatever the
    object held. *)
Lemma refresh_cases env :
  (exists g e p cs,
      globalCandidates env = Returns g /\
      extensionCandidates env = Returns e /\
      projectCandidates env = Returns p /\
      readGeminiMdFiles env (uniq (g ++ e ++ p)) (getDebugMode env)
                        (getImportFormat env) = Returns cs) \/
  (exists o tr',
      ~ returns o /\ memoryChanges tr' = [] /\
      forall cm tr, refresh env (cm, tr) = (o, (cleared cm, tr ++ tr'))).
Proof.
  assert (Hrun : forall cm tr,
    refresh env (cm, tr) =
    match discoverMemoryPaths env (getDebugMode env) (cleared cm, tr) with
    | (Returns paths, w) =>
        match loadMemoryContents env paths (getDebugMode env) w with
        | (Returns contentsMap, w') =>
            (buildMemoryFileDetails paths contentsMap;;
             categorizeMemoryContents env paths contentsMap;;
             emitMemoryChanged) w'
        | (Raises x, w') => (Raises x, w')
        | (Diverges, w') => (Diverges, w')
        end
    | (Raises x, w) => (Raises x, w)
    | (Diverges, w) => (Diverges, w)
    end) by reflexivity.
  assert (Hquiet : forall l, memoryChanges (discoveryCalls env ++ l) = memoryChanges l).
  { intros l. unfold discoveryCalls. by destruct (isTrustedFolder env). }
  destruct (getExtensionMemoryPaths env) as [e|x|] eqn:He.
  - destruct (promise_all (getGlobalMemoryPaths env (getDebugMode env))
                          (projectCandidates env)) as [[g p]|x|] eqn:Hall.
    + assert (Hg : getGlobalMemoryPaths env (getDebugMode env) = Returns g).
      { destruct (getGlobalMemoryPaths env _), (projectCandidates env);
          simpl in Hall; congruence. }
      assert (Hp : projectCandidates env = Returns p).
      { destruct (getGlobalMemoryPaths env _), (projectCandidates env);
          simpl in Hall; congruence. }
      destruct (readGeminiMdFiles env (uniq (g ++ e ++ p)) (getDebugMode env)
                  (getImportFormat env)) as [cs|x|] eqn:Hr.
      * left. by exists g, e, p, cs.
      * right. exists (Raises x),
          (discoveryCalls env
             ++ [CallReadGeminiMdFiles (uniq (g ++ e ++ p)) (getDebugMode env)
                   (getImportFormat env)]).
        split; [by intros [? ?]|]. split; [by rewrite Hquiet|].
        intros cm tr. rewrite Hrun, discoverMemoryPaths_run, He. cbv zeta.
        unfold projectCandidates in Hall. rewrite Hall.
        rewrite loadMemoryContents_run. cbv zeta. cbn [global extension project].
        rewrite Hr. unfold discoveryCalls. by rewrite <- !app_assoc.
      * right. exists Diverges,
          (discoveryCalls env
             ++ [CallReadGeminiMdFiles (uniq (g ++ e ++ p)) (getDebugMode env)
                   (getImportFormat env)]).
        split; [by intros [? ?]|]. split; [by rewrite Hquiet|].
        intros cm tr. rewrite Hrun, discoverMemoryPaths_run, He. cbv zeta.
        unfold projectCandidates in Hall. rewrite Hall.
        rewrite loadMemoryContents_run. cbv zeta. cbn [global extension project].
        rewrite Hr. unfold discoveryCalls. by rewrite <- !app_assoc.
    + right. exists (Raises x), (discoveryCalls env).
      split; [by intros [? ?]|].
      split; [by rewrite <- (app_nil_r (discoveryCalls env)), Hquiet|].
      intros cm tr. rewrite Hrun, discoverMemoryPaths_run, He. cbv zeta.
      unfold projectCandidates in Hall. by rewrite Hall.
    + right. exists Diverges, (discoveryCalls env).
      split; [by intros [? ?]|].
      split; [by rewrite <- (app_nil_r (discoveryCalls env)), Hquiet|].
      intros cm tr. rewrite Hrun, discoverMemoryPaths_run, He. cbv zeta.
      unfold projectCandidates in Hall. by rewrite Hall.
  - right. exists (Raises x),
      [CallGetGlobalMemoryPaths (getDebugMode env); CallGetExtensionMemoryPaths].
    split; [by intros [? ?]|]. split; [done|].
    intros cm tr. by rewrite Hrun, discoverMemoryPaths_run, He.
  - right. exists Diverges,
      [CallGetGlobalMemoryPaths (getDebugMode env); CallGetExtensionMemoryPaths].
    split; [by intros [? ?]|]. split; [done|].
    intros cm tr. by rewrite Hrun, discoverMemoryPaths_run, He.
Qed.

Lemma memoryChanges_app tr tr' :
  memoryChanges (tr ++ tr') = memoryChanges tr ++ memoryChanges tr'.
Proof. unfold memoryChanges. apply flat_map_app. Qed.

Lemma memoryChanges_discovery env : memoryChanges (discoveryCalls env) = [].
Proof. unfold discoveryCalls. by destruct (isTrustedFolder env). Qed.

Lemma memoryChanges_loadLog loaded : memoryChanges [loadLog loaded] = [].
Proof. unfold loadLog. by destruct (0 <? _). Qed.

Lemma map_set_elem_of {V} (k : jsstring) (v : V) (mp : JsMap V) x :
  x ∈ map_set k v mp -> x = (k, v) \/ x ∈ mp.
Proof.
  induction mp as [|[k' v'] mp IH]; simpl.
  - intros ->%list_elem_of_singleton. by left.
  - case_bool_decide.
    + intros [->|Hx]%elem_of_cons; [by left|]. right. by right.
    + intros [->|Hx]%elem_of_cons; [right; by left|].
      destruct (IH Hx) as [->|?]; [by left|]. right. by right.
Qed.

(** A map holds only entries it was built from. *)
Lemma map_of_elem_of {V} (entries : list (jsstring * V)) x :
  x ∈ map_of entries -> x ∈ entries.
Proof.
  unfold map_of.
  assert (H : forall mp : JsMap V,
            x ∈ foldl (fun mp '(k, v) => map_set k v mp) mp entries ->
            x ∈ mp \/ x ∈ entries).
  { induction entries as [|[k v] es IH]; intros mp; simpl; [by left|].
    intros [Hx|Hx]%IH; [|right; by right].
    apply map_set_elem_of in Hx as [->|Hx]; [right; by left|by left]. }
  intros [Hx|Hx]%H; [by apply elem_of_nil in Hx|done].
Qed.

(** ** What [refresh] leaves behind *)

(** The result of [refresh] does not depend on what the object held
    before: the outcome and the calls and events are the same from any
    two objects, and when [refresh] completes so is the object it
    leaves.  In particular the paths marked loaded by earlier calls of
    [discoverContext] are forgotten. *)
Theorem refresh_from_scratch env cm1 cm2 tr :
  fst (refresh env (cm1, tr)) = fst (refresh env (cm2, tr)) /\
  snd (snd (refresh env (cm1, tr))) = snd (snd (refresh env (cm2, tr))) /\
  (returns (fst (refresh env (cm1, tr))) ->
   fst (snd (refresh env (cm1, tr))) = fst (snd (refresh env (cm2, tr)))).
Proof.
  destruct (refresh_cases env) as [(g & e & p & cs & Hg & He & Hp & Hr)
                                  |(o & tr' & Ho & _ & Hrun)].
  - by rewrite !(refresh_run env _ tr g e p cs Hg He Hp Hr).
  - rewrite !Hrun. by repeat split.
Qed.

(** A [refresh] that completes emits exactly one memory-changed event,
    as its last event, and the count it carries is the [fileCount] that
    [getMemorySizeBreakdown] reports afterwards. *)
Theorem refresh_announces_fileCount env cm tr cm' tr' :
  refresh env (cm, tr) = (Returns tt, (cm', tr')) ->
  exists mid,
    tr' = tr ++ mid ++ [MemoryChanged (fileCount (getMemorySizeBreakdown cm'))] /\
    memoryChanges mid = [].
Proof.
  destruct (refresh_cases env) as [(g & e & p & cs & Hg & He & Hp & Hr)
                                  |(o & new & Ho & _ & Hrun)].
  - rewrite (refresh_run env cm tr g e p cs Hg He Hp Hr). cbv zeta.
    intros [= <- <-].
    exists (discoveryCalls env
              ++ [CallReadGeminiMdFiles (uniq (g ++ e ++ p)) (getDebugMode env)
                    (getImportFormat env);
                  loadLog (loadedFilesOf cs)]).
    split; [by rewrite <- !app_assoc|].
    rewrite memoryChanges_app, memoryChanges_discovery.
    apply (memoryChanges_loadLog (loadedFilesOf cs)).
  - rewrite Hrun. intros [= -> _ _]. exfalso. apply Ho. by eexists.
Qed.

Lemma refresh_announces_fileCount_witness :
  exists mid,
    [CallGetGlobalMemoryPaths false; CallGetExtensionMemoryPaths;
     CallReadGeminiMdFiles [globalFile; extensionFile] false FormatTree;
     ConsoleLogLoaded [(globalFile, 12); (extensionFile, 15)] 27;
     MemoryChanged 2]
    = [] ++ mid
      ++ [MemoryChanged
            (fileCount
               (getMemorySizeBreakdown
                  (mkManager {[globalFile; extensionFile]} (js "global rules")
                     (js "extension rules") []
                     [mkDetail globalFile TierGlobal 12;
                      mkDetail extensionFile TierExtension 15])))] /\
    memoryChanges mid = [].
Proof.
  apply (refresh_announces_fileCount
           (example_env false (Returns [extensionFile])) initial []).
  vm_compute. reflexivity.
Defined.

(** When a discovery or the reader throws or never settles, [refresh]
    does not complete: it stops before any path is marked loaded, so it
    leaves the loaded-path set and the records empty and the three
    buffers as they were, and emits no memory-changed event; the size
    summary then reports the old character counts with a file count of
    zero. *)
Theorem refresh_incomplete env cm tr :
  ~ returns (globalCandidates env) \/
  ~ returns (extensionCandidates env) \/
  ~ returns (projectCandidates env) \/
  (exists g e p,
      globalCandidates env = Returns g /\
      extensionCandidates env = Returns e /\
      projectCandidates env = Returns p /\
      ~ returns (readGeminiMdFiles env (uniq (g ++ e ++ p)) (getDebugMode env)
                   (getImportFormat env))) ->
  exists o cm' tr',
    refresh env (cm, tr) = (o, (cm', tr')) /\
    ~ returns o /\
    getLoadedPaths cm' = ∅ /\
    getMemoryFileDetails cm' = [] /\
    getGlobalMemory cm' = getGlobalMemory cm /\
    getExtensionMemory cm' = getExtensionMemory cm /\
    getEnvironmentMemory cm' = getEnvironmentMemory cm /\
    fileCount (getMemorySizeBreakdown cm') = 0 /\
    totalChars (getMemorySizeBreakdown cm') = totalChars (getMemorySizeBreakdown cm) /\
    exists new, tr' = tr ++ new /\ memoryChanges new = [].
Proof.
  intros Hstop.
  destruct (refresh_cases env) as [(g & e & p & cs & Hg & He & Hp & Hr)
                                  |(o & new & Ho & Hnew & Hrun)].
  - exfalso. destruct Hstop as [H|[H|[H|(g' & e' & p' & Hg' & He' & Hp' & H)]]].
    + apply H. by eexists.
    + apply H. by eexists.
    + apply H. by eexists.
    + apply H. rewrite Hg in Hg'. rewrite He in He'. rewrite Hp in Hp'.
      injection Hg' as <-. injection He' as <-. injection Hp' as <-.
      by eexists.
  - exists o, (cleared cm), (tr ++ new). split; [apply Hrun|].
    split; [exact Ho|]. repeat split; try done. by exists new.
Qed.

Lemma refresh_incomplete_witness :
  let env := with_reader (fun _ _ _ => Raises "EACCES")
               (example_env true (Returns [extensionFile])) in
  let cm := mkManager {[projectFile]} (js "global rules") [] (js "project rules")
              [mkDetail projectFile TierProject 13] in
  exists o cm' tr',
    refresh env (cm, []) = (o, (cm', tr')) /\
    ~ returns o /\
    getLoadedPaths cm' = ∅ /\
    getMemoryFileDetails cm' = [] /\
    getGlobalMemory cm' = getGlobalMemory cm /\
    getExtensionMemory cm' = getExtensionMemory cm /\
    getEnvironmentMemory cm' = getEnvironmentMemory cm /\
    fileCount (getMemorySizeBreakdown cm') = 0 /\
    totalChars (getMemorySizeBreakdown cm') = totalChars (getMemorySizeBreakdown cm) /\
    exists new, tr' = [] ++ new /\ memoryChanges new = [].
Proof.
  apply (refresh_incomplete
           (with_reader (fun _ _ _ => Raises "EACCES")
              (example_env true (Returns [extensionFile])))
           (mkManager {[projectFile]} (js "global rules") [] (js "project rules")
              [mkDetail projectFile TierProject 13])
           []).
  right. right. right.
  exists [globalFile], [extensionFile], [extensionFile; projectFile; brokenFile].
  split; [reflexivity|]. split; [reflexivity|]. split; [reflexivity|].
  intros [? H]. discriminate H.
Defined.

(** After a [refresh] that completes, every record names a path of the
    loaded-path set, and there are at most as many records as the
    [fileCount] of the size summary. *)
Theorem details_within_loaded env cm tr cm' tr' :
  refresh env (cm, tr) = (Returns tt, (cm', tr')) ->
  (forall d, d ∈ getMemoryFileDetails cm' -> path d ∈ getLoadedPaths cm') /\
  length (getMemoryFileDetails cm') <= fileCount (getMemorySizeBreakdown cm').
Proof.
  destruct (refresh_cases env) as [(g & e & p & cs & Hg & He & Hp & Hr)
                                  |(o & new & Ho & _ & Hrun)].
  2: { rewrite Hrun. intros [= -> _ _]. exfalso. apply Ho. by eexists. }
  rewrite (refresh_run env cm tr g e p cs Hg He Hp Hr). cbv zeta.
  intros [= <- _].
  unfold getMemoryFileDetails, getLoadedPaths, getMemorySizeBreakdown.
  cbn [memoryFileDetails loadedPaths fileCount].
  set (mp := map_of (map (fun c => (filePath c, c)) cs)).
  set (loaded := addAll ∅ (map filePath (loadedFilesOf cs))).
  assert (Hin : forall d, d ∈ detailsOf (mkPaths g e p) mp [] -> path d ∈ loaded).
  { intros d (k & c & text & Hkc & Hc & ->)%elem_of_details. simpl.
    apply map_of_elem_of in Hkc.
    apply (list_elem_of_fmap (fun c => (filePath c, c))) in Hkc
      as (c' & [= -> <-] & Hc').
    apply elem_of_addAll. left.
    apply (list_elem_of_fmap filePath). exists c. split; [done|].
    apply list_elem_of_In, filter_In. split; [by apply list_elem_of_In|].
    apply bool_decide_eq_true. congruence. }
  split; [exact Hin|].
  assert (Hnd : NoDup (path <$> detailsOf (mkPaths g e p) mp []))
    by apply details_NoDup, map_of_NoDup.
  rewrite <- (length_fmap path).
  rewrite <- (size_list_to_set (C := gset jsstring) _ Hnd).
  apply subseteq_size. intros q Hq.
  apply elem_of_list_to_set, list_elem_of_fmap in Hq as (d & -> & Hd).
  by apply Hin.
Qed.

Lemma details_within_loaded_witness :
  let cm' := mkManager {[globalFile; extensionFile]} (js "global rules")
               (js "extension rules") []
               [mkDetail globalFile TierGlobal 12;
                mkDetail extensionFile TierExtension 15] in
  (forall d, d ∈ getMemoryFileDetails cm' -> path d ∈ getLoadedPaths cm') /\
  length (getMemoryFileDetails cm') <= fileCount (getMemorySizeBreakdown cm').
Proof.
  apply (details_within_loaded
           (example_env false (Returns [extensionFile])) initial []
           (mkManager {[globalFile; extensionFile]} (js "global rules")
               (js "extension rules") []
               [mkDetail globalFile TierGlobal 12;
                mkDetail extensionFile TierExtension 15])
           [CallGetGlobalMemoryPaths false; CallGetExtensionMemoryPaths;
            CallReadGeminiMdFiles [globalFile; extensionFile] false FormatTree;
            ConsoleLogLoaded [(globalFile, 12); (extensionFile, 15)] 27;
            MemoryChanged 2]).
  vm_compute. reflexivity.
Defined.

(** ** What [discoverContext] leaves alone *)


(** In a trusted folder, a [discoverContext] whose walk returns hands
    the walk the loaded-path set as it stands, and afterwards the set is
    the old one together with the paths of the files the walk returned;
    the call returns the empty string when the walk returned no file. *)
Theorem discoverContext_marks_loaded env accessedPath trustedRoots cm tr result :
  isTrustedFolder env = true ->
  loadJitSubdirectoryMemory env accessedPath trustedRoots (getLoadedPaths cm)
    (getDebugMode env) = Returns result ->
  exists text cm',
    discoverContext env accessedPath trustedRoots (cm, tr)
    = (Returns text,
       (cm', tr ++ [CallLoadJitSubdirectoryMemory accessedPath trustedRoots
                      (getLoadedPaths cm) (getDebugMode env)])) /\
    getLoadedPaths cm'
    = list_to_set (jitPath <$> files result) ∪ getLoadedPaths cm /\
    (files result = [] -> text = []).
Proof.
  unfold getLoadedPaths. intros Ht Hjit.
  rewrite discoverContext_run, Ht. cbv zeta. rewrite Hjit.
  destruct (files result) as [|f fs] eqn:Hfiles.
  - simpl. eexists _, cm. split; [reflexivity|].
    split; [by rewrite (left_id_L ∅ (∪))|done].
  - cbn [length Nat.eqb]. eexists _, _. split; [reflexivity|].
    split; [|done]. cbn [loadedPaths set_loadedPaths]. by rewrite addAll_spec.
Qed.

Lemma discoverContext_marks_loaded_witness :
  exists text cm',
    discoverContext (example_env true (Returns [extensionFile]))
      (js "/w/app/src/main.ts") [js "/w/app"] (initial, [])
    = (Returns text,
       (cm', [] ++ [CallLoadJitSubdirectoryMemory (js "/w/app/src/main.ts")
                      [js "/w/app"] (getLoadedPaths initial)
                      (getDebugMode (example_env true (Returns [extensionFile])))])) /\
    getLoadedPaths cm'
    = list_to_set (jitPath <$> files (mkLoadResult
                                        [mkJitFile projectFile (js "project rules")]))
      ∪ getLoadedPaths initial /\
    (files (mkLoadResult [mkJitFile projectFile (js "project rules")]) = [] ->
     text = []).
Proof.
  apply (discoverContext_marks_loaded (example_env true (Returns [extensionFile]))
           (js "/w/app/src/main.ts") [js "/w/app"] initial []
           (mkLoadResult [mkJitFile projectFile (js "project rules")]));
    reflexivity.
Defined.

(** After a [refresh] that completes in a trusted folder, the walk of
    [discoverContext] is told that exactly the files that [refresh] read
    with a content are already loaded. *)
Theorem refresh_then_discoverContext env cm tr g e p cs accessedPath trustedRoots :
  isTrustedFolder env = true ->
  globalCandidates env = Returns g ->
  extensionCandidates env = Returns e ->
  projectCandidates env = Returns p ->
  readGeminiMdFiles env (uniq (g ++ e ++ p)) (getDebugMode env)
                    (getImportFormat env) = Returns cs ->
  exists cm1 tr1 o cm2,
    refresh env (cm, tr) = (Returns tt, (cm1, tr1)) /\
    discoverContext env accessedPath trustedRoots (cm1, tr1)
    = (o, (cm2, tr1 ++ [CallLoadJitSubdirectoryMemory accessedPath trustedRoots
                          (list_to_set (filePath <$> loadedFilesOf cs))
                          (getDebugMode env)])).
Proof.
  intros Ht Hg He Hp Hr.
  rewrite (refresh_run env cm tr g e p cs Hg He Hp Hr). cbv zeta.
  eexists _, _. rewrite discoverContext_run, Ht. cbv zeta.
  cbn [loadedPaths]. rewrite addAll_spec, (right_id_L ∅ (∪)).
  destruct (loadJitSubdirectoryMemory env _ _ _ _) as [result|x|].
  - destruct (length (files result) =? 0); eexists _, _; split; reflexivity.
  - eexists _, _; split; reflexivity.
  - eexists _, _; split; reflexivity.
Qed.

Lemma refresh_then_discoverContext_witness :
  exists cm1 tr1 o cm2,
    refresh (example_env true (Returns [extensionFile])) (initial, [])
    = (Returns tt, (cm1, tr1)) /\
    discoverContext (example_env true (Returns [extensionFile]))
      (js "/w/app/sub/a.ts") [js "/w/app"] (cm1, tr1)
    = (o, (cm2, tr1 ++ [CallLoadJitSubdirectoryMemory (js "/w/app/sub/a.ts")
                          [js "/w/app"]
                          (list_to_set
                             (filePath <$> loadedFilesOf
                                [mkContent globalFile (Some (js "global rules"));
                                 mkContent extensionFile (Some (js "extension rules"));
                                 mkContent projectFile (Some (js "project rules"));
                                 mkContent brokenFile None]))
                          (getDebugMode (example_env true (Returns [extensionFile])))])).
Proof.
  apply (refresh_then_discoverContext
           (example_env true (Returns [extensionFile])) initial []
           [globalFile] [extensionFile] [extensionFile; projectFile; brokenFile]);
    reflexivity.
Defined.

(** ** The project buffer *)

(** In a trusted folder [categorizeMemoryContents] sets the project
    buffer to the project content, followed by the MCP instructions
    without their leading white space; the two are separated by an empty
    line exactly when neither is empty, and a part that is empty leaves
    no separator behind. *)
Theorem categorize_project_buffer env paths contentsMap cm tr :
  isTrustedFolder env = true ->
  exists cm' pad mcp,
    categorizeMemoryContents env paths contentsMap (cm, tr) = (Returns tt, (cm', tr)) /\
    default [] (getMcpInstructions env) = pad ++ mcp /\
    Forall (fun c => isWhiteSpace c = true) pad /\
    (forall c, head mcp = Some c -> isWhiteSpace c = false) /\
    let project :=
      default [] (hmProject (categorizeAndConcatenate env paths contentsMap
                               (getWorkingDir env))) in
    getEnvironmentMemory cm'
    = project
        ++ (if bool_decide (project <> [] /\ mcp <> []) then [10; 10]%N else [])
        ++ mcp.
Proof.
  intros Ht. rewrite categorizeMemoryContents_run. cbv zeta. rewrite Ht.
  destruct (trimStart_spec (default [] (getMcpInstructions env)))
    as (pad & Hpad & Hws & Hhead).
  eexists _, pad, (trimStart (default [] (getMcpInstructions env))).
  split; [reflexivity|]. split; [exact Hpad|]. split; [exact Hws|].
  split; [exact Hhead|]. cbv zeta.
  unfold getEnvironmentMemory, projectMemoryWithMcp. cbn [projectMemory].
  set (hm := categorizeAndConcatenate env paths contentsMap (getWorkingDir env)).
  set (mcp := trimStart (default [] (getMcpInstructions env))).
  destruct (hmProject hm) as [[|c project]|]; destruct mcp as [|c' mcp];
    simpl; rewrite ?app_nil_r; done.
Qed.

Lemma categorize_project_buffer_witness :
  exists cm' pad mcp,
    categorizeMemoryContents (example_env true (Returns [])) (mkPaths [] [] [projectFile])
      [(projectFile, mkContent projectFile (Some (js "project rules")))] (initial, [])
    = (Returns tt, (cm', [])) /\
    default [] (getMcpInstructions (example_env true (Returns []))) = pad ++ mcp /\
    Forall (fun c => isWhiteSpace c = true) pad /\
    (forall c, head mcp = Some c -> isWhiteSpace c = false) /\
    let project :=
      default [] (hmProject (categorizeAndConcatenate (example_env true (Returns []))
                               (mkPaths [] [] [projectFile])
                               [(projectFile, mkContent projectFile
                                                (Some (js "project rules")))]
                               (getWorkingDir (example_env true (Returns []))))) in
    getEnvironmentMemory cm'
    = project
        ++ (if bool_decide (project <> [] /\ mcp <> []) then [10; 10]%N else [])
        ++ mcp.
Proof.
  apply (categorize_project_buffer (example_env true (Returns []))
           (mkPaths [] [] [projectFile])
           [(projectFile, mkContent projectFile (Some (js "project rules")))]
           initial []).
  reflexivity.
Defined.

(** ** The console message *)

Lemma foldl_chars (l : list GeminiFileContent) : forall a,
  foldl (fun sum c => sum + charsOf c) a l = a + sum_list (charsOf <$> l).
Proof.
  induction l as [|c l IH]; intros a.
  - simpl. lia.
  - cbn [foldl]. rewrite IH, fmap_cons. cbn [sum_list_with id]. lia.
Qed.

Lemma size_list_to_set_le (l : list jsstring) :
  size (list_to_set l : gset jsstring) <= length l.
Proof.
  induction l as [|q l IH].
  { change (size (∅ : gset jsstring) <= 0). by rewrite size_empty. }
  cbn [list_to_set foldr length]. rewrite size_union_alt, size_singleton.
  assert (H : size ((list_to_set l : gset jsstring) ∖ {[q]})
              <= size (list_to_set l : gset jsstring)).
  { apply subseteq_size. by intros x [? _]%elem_of_difference. }
  lia.
Qed.

(** In a [refresh] that completes, the console message comes right
    before the memory-changed event, and it agrees with the object: the
    message that nothing was loaded is logged exactly when the
    loaded-path set is empty; otherwise the files listed are those of the
    loaded-path set, the total is the sum of their sizes, and the count
    of the event is at most the number of files listed. *)
Theorem refresh_log_consistent env cm tr cm' tr' :
  refresh env (cm, tr) = (Returns tt, (cm', tr')) ->
  exists pre log n,
    tr' = tr ++ pre ++ [log; MemoryChanged n] /\
    match log with
    | ConsoleLogNoFiles => getLoadedPaths cm' = ∅
    | ConsoleLogLoaded loaded total =>
        loaded <> [] /\
        list_to_set (fst <$> loaded) = getLoadedPaths cm' /\
        total = sum_list (snd <$> loaded) /\
        n <= length loaded
    | _ => False
    end.
Proof.
  destruct (refresh_cases env) as [(g & e & p & cs & Hg & He & Hp & Hr)
                                  |(o & new & Ho & _ & Hrun)].
  2: { rewrite Hrun. intros [= -> _ _]. exfalso. apply Ho. by eexists. }
  rewrite (refresh_run env cm tr g e p cs Hg He Hp Hr). cbv zeta.
  intros [= <- <-].
  exists (discoveryCalls env
            ++ [CallReadGeminiMdFiles (uniq (g ++ e ++ p)) (getDebugMode env)
                  (getImportFormat env)]),
    (loadLog (loadedFilesOf cs)),
    (size (addAll ∅ (map filePath (loadedFilesOf cs)))).
  split; [by rewrite <- !app_assoc|].
  unfold getLoadedPaths. cbn [loadedPaths].
  rewrite addAll_spec, (right_id_L ∅ (∪)).
  unfold loadLog. set (l := loadedFilesOf cs).
  destruct l as [|c l'] eqn:Hl; [done|].
  rewrite <- Hl. replace (0 <? length (map filePath l)) with true
    by (rewrite Hl; done).
  split; [by rewrite Hl|].
  split; [by rewrite <- list_fmap_compose|].
  split.
  - rewrite foldl_chars. simpl. f_equal. by rewrite <- list_fmap_compose.
  - rewrite length_map. rewrite <- (length_map filePath l).
    apply size_list_to_set_le.
Qed.

Lemma refresh_log_consistent_witness :
  exists pre log n,
    [CallGetGlobalMemoryPaths false; CallGetExtensionMemoryPaths;
     CallReadGeminiMdFiles [globalFile; extensionFile] false FormatTree;
     ConsoleLogLoaded [(globalFile, 12); (extensionFile, 15)] 27;
     MemoryChanged 2]
    = [] ++ pre ++ [log; MemoryChanged n] /\
    match log with
    | ConsoleLogNoFiles =>
        getLoadedPaths
          (mkManager {[globalFile; extensionFile]} (js "global rules")
             (js "extension rules") []
             [mkDetail globalFile TierGlobal 12;
              mkDetail extensionFile TierExtension 15]) = ∅
    | ConsoleLogLoaded loaded total =>
        loaded <> [] /\
        list_to_set (fst <$> loaded)
        = getLoadedPaths
            (mkManager {[globalFile; extensionFile]} (js "global rules")
               (js "extension rules") []
               [mkDetail globalFile TierGlobal 12;
                mkDetail extensionFile TierExtension 15]) /\
        total = sum_list (snd <$> loaded) /\
        n <= length loaded
    | _ => False
    end.
Proof.
  apply (refresh_log_consistent
           (example_env false (Returns [extensionFile])) initial []).
  vm_compute. reflexivity.
Defined.

(** ** The order of the discoveries *)

(** When the extension registry throws, [refresh] throws the same
    error: the global discovery has been started by then, the project
    discovery is never asked, also in a trusted folder, and nothing is
    read. *)
Theorem extension_throw_skips_project env cm tr x :
  getExtensionMemoryPaths env = Raises x ->
  refresh env (cm, tr)
  = (Raises x,
     (cleared cm,
      tr ++ [CallGetGlobalMemoryPaths (getDebugMode env);
             CallGetExtensionMemoryPaths])).
Proof.
  intros He.
  change (refresh env (cm, tr)) with
    (match discoverMemoryPaths env (getDebugMode env) (cleared cm, tr) with
     | (Returns paths, w) =>
         (contentsMap ← loadMemoryContents env paths (getDebugMode env);
          buildMemoryFileDetails paths contentsMap;;
          categorizeMemoryContents env paths contentsMap;;
          emitMemoryChanged) w
     | (Raises x, w) => (Raises x, w)
     | (Diverges, w) => (Diverges, w)
     end).
  by rewrite discoverMemoryPaths_run, He.
Qed.

Lemma extension_throw_skips_project_witness :
  refresh (example_env true (Raises "extension registry")) (initial, [])
  = (Raises "extension registry",
     (cleared initial,
      [] ++ [CallGetGlobalMemoryPaths
               (getDebugMode (example_env true (Raises "extension registry")));
             CallGetExtensionMemoryPaths])).
Proof.
  apply (extension_throw_skips_project
           (example_env true (Raises "extension registry")) initial []).
  reflexivity.
Defined.

End MemoryFacts.
